(** * Longest-prefix-match routing trie (src/main.cpp)

    A shallow embedding of [address_prefix::pop_bit], [routing_trie::insert]
    and [routing_trie::find], with the facts the routing-trie specification
    states about them.

    Conventions:
    - [uint128_t] and [unsigned] are [Z] with the wrap-around written out
      ([wrap128], [wrap32]; [unsigned] is taken to be 32 bits wide);
    - [std::unique_ptr<node>] is [option node]; a trie is its root [node];
    - [std::abort] is the outcome [Abort]; the loop of [insert], which is
      driven by the cursor alone, takes fuel and [OutOfFuel] is shown
      unreachable;
    - the two loops of [find] both descend the tree and are written by
      structural recursion on the node [current] points to. *)

From Stdlib Require Import ZArith List Bool Lia Permutation.
Import ListNotations.
Local Open Scope Z_scope.

(** ** Machine integers *)

Definition wrap32 (x : Z) : Z := x mod 2 ^ 32.
Definition wrap128 (x : Z) : Z := x mod 2 ^ 128.

(** ** [struct address_prefix] *)

Record address_prefix : Type := mk_prefix {
  address : Z;        (* uint128_t *)
  prefix_length : Z   (* unsigned *)
}.

(** [static constexpr uint128_t highest_bit = 1 << 127]. *)
Definition highest_bit : Z := Z.shiftl 1 127.

(** [pop_bit]: the test [prefix_length-- == 0] reads the old length and
    always stores the decremented one; the returned [optional<unsigned>]
    only ever holds a converted [bool], which the model keeps as [bool].
    The second component is the cursor after the call. *)
Definition pop_bit (p : address_prefix) : option bool * address_prefix :=
  let len' := wrap32 (prefix_length p - 1) in
  if prefix_length p =? 0 then
    (None, mk_prefix (address p) len')
  else
    let bit := negb (Z.land (address p) highest_bit =? 0) in
    (Some bit, mk_prefix (wrap128 (Z.shiftl (address p) 1)) len').

(** ** [struct prefix_and_pop], [struct pop_and_prefix_length] *)

Record prefix_and_pop : Type := mk_entry {
  prefix : address_prefix;
  pop : Z   (* std::uint16_t *)
}.

Record pop_and_prefix_length : Type := mk_match {
  matched_pop : Z;      (* std::uint16_t pop *)
  matched_length : Z    (* unsigned prefix_length *)
}.

(** ** [struct routing_trie::node] *)

#[local] Unset Elimination Schemes.
Inductive node : Type :=
| mk_node (npop : option Z) (child0 child1 : option node).

#[local] Set Elimination Schemes.

Definition node_pop (n : node) : option Z :=
  match n with mk_node p _ _ => p end.

(** [children[bit]] *)
Definition children (n : node) (bit : bool) : option node :=
  match n with mk_node _ c0 c1 => if bit then c1 else c0 end.

(** A value-initialised node, as [std::make_unique<node>()] and the
    default-constructed [root] produce it. *)
Definition empty_node : node := mk_node None None None.

Definition set_child (n : node) (bit : bool) (c : node) : node :=
  match n with
  | mk_node p c0 c1 => if bit then mk_node p c0 (Some c) else mk_node p (Some c) c1
  end.

Definition set_pop (n : node) (v : Z) : node :=
  match n with mk_node _ c0 c1 => mk_node (Some v) c0 c1 end.

(** ** [routing_trie::insert] *)

Inductive outcome (A : Type) : Type :=
| Done (a : A)
| Abort
| OutOfFuel.
Arguments Done {A} a.
Arguments Abort {A}.
Arguments OutOfFuel {A}.

(** The loop of [insert] from the node [current] on, followed by the
    duplicate test and the store; the result is the subtree rooted at
    [current] after the call. *)
Fixpoint insert_loop (fuel : nat) (prefix : address_prefix) (current : node)
    (v : Z) : outcome node :=
  match fuel with
  | O => OutOfFuel
  | S fuel' =>
    match pop_bit prefix with
    | (Some bit, prefix') =>
      let child :=
        match children current bit with
        | Some c => c
        | None => empty_node
        end in
      match insert_loop fuel' prefix' child v with
      | Done child' => Done (set_child current bit child')
      | Abort => Abort
      | OutOfFuel => OutOfFuel
      end
    | (None, _) =>
      match node_pop current with
      | Some _ => Abort
      | None => Done (set_pop current v)
      end
    end
  end.

Definition insert (e : prefix_and_pop) (root : node) : outcome node :=
  insert_loop (S (Z.to_nat (prefix_length (prefix e)))) (prefix e) root (pop e).

(** The load loop of [parse_data]: every entry is inserted in turn, and an
    abort ends the process. *)
Fixpoint load (es : list prefix_and_pop) (root : node) : outcome node :=
  match es with
  | [] => Done root
  | e :: es' =>
    match insert e root with
    | Done root' => load es' root'
    | Abort => Abort
    | OutOfFuel => OutOfFuel
    end
  end.

(** ** [routing_trie::find] *)

(** State of [find] when a loop ends; [transitions] counts the assignments
    to [current] made so far. *)
Record find_state : Type := mk_state {
  st_current : option node;
  st_depth : Z;
  st_best : option pop_and_prefix_length;
  transitions : nat
}.

(** First loop (the walk along the query's bits), entered with [current]
    pointing to a node. *)
Fixpoint find_walk (current : node) (prefix : address_prefix) (depth : Z)
    (best : option pop_and_prefix_length) (k : nat) {struct current}
    : find_state :=
  match pop_bit prefix with
  | (Some bit, prefix') =>
    let depth' := wrap32 (depth + 1) in
    match children current bit with
    | Some next =>
      let best' :=
        match node_pop next with
        | Some v => Some (mk_match v depth')
        | None => best
        end in
      find_walk next prefix' depth' best' (S k)
    | None => mk_state None depth' best (S k)
    end
  | (None, _) => mk_state (Some current) depth best k
  end.

(** Second loop (the descent below the landing node), entered with
    [current] pointing to a node and [best] unset. *)
Fixpoint find_descend (current : node) (depth : Z) (k : nat)
    {struct current} : find_state :=
  match node_pop current with
  | Some v => mk_state (Some current) depth (Some (mk_match v depth)) k
  | None =>
    let depth' := wrap32 (depth + 1) in
    match children current false with
    | Some c => find_descend c depth' (S k)
    | None =>
      match children current true with
      | Some c => find_descend c depth' (S k)
      | None => mk_state None depth' None (S k)
      end
    end
  end.

Definition find_run (root : node) (prefix : address_prefix) : find_state :=
  let s := find_walk root prefix 0 None 0 in
  match st_current s, st_best s with
  | Some current, None => find_descend current (st_depth s) (transitions s)
  | _, _ => s
  end.

Definition find (root : node) (prefix : address_prefix)
    : option pop_and_prefix_length :=
  st_best (find_run root prefix).

(** ** Bit paths

    A trie position is the list of bits a cursor yields, most significant
    first.  [prefix_bits] reads them off the address directly; bit [i] of
    the path is bit [127 - i] of the address, and positions past the 128th
    read as 0, which is what the shifted-in zeros give. *)

Definition path := list bool.

Definition prefix_bits (p : address_prefix) : path :=
  map (fun i => Z.testbit (address p) (127 - Z.of_nat i))
      (seq 0 (Z.to_nat (prefix_length p))).

(** [unsigned] values. *)
Definition is_unsigned (x : Z) : Prop := 0 <= x < 2 ^ 32.

(** [P] covers [Q]: the bits of [P] are the leading bits of [Q]. *)
Definition is_prefix_of (P Q : address_prefix) : Prop :=
  exists rest, prefix_bits Q = prefix_bits P ++ rest.

(** The node a bit path leads to, if the trie has one there. *)
Fixpoint lookup (n : node) (bs : path) {struct bs} : option node :=
  match bs with
  | [] => Some n
  | b :: bs' =>
    match children n b with
    | Some c => lookup c bs'
    | None => None
    end
  end.

Definition payload_at (n : node) (bs : path) : option Z :=
  match lookup n bs with
  | Some m => node_pop m
  | None => None
  end.

(** [insert_loop] read as a function of the bit path. *)
Fixpoint insert_bits (bs : path) (v : Z) (n : node) {struct bs}
    : option node :=
  match bs with
  | [] =>
    match node_pop n with
    | Some _ => None
    | None => Some (set_pop n v)
    end
  | b :: bs' =>
    let child := match children n b with Some c => c | None => empty_node end in
    match insert_bits bs' v child with
    | Some child' => Some (set_child n b child')
    | None => None
    end
  end.

(** [find_walk] read as a function of the bit path, with the depth as a
    natural number. *)
Fixpoint walk_bits (current : node) (bs : path) (depth : nat)
    (best : option (Z * nat)) {struct bs}
    : option node * nat * option (Z * nat) :=
  match bs with
  | [] => (Some current, depth, best)
  | b :: bs' =>
    match children current b with
    | Some next =>
      walk_bits next bs' (S depth)
        (match node_pop next with Some v => Some (v, S depth) | None => best end)
    | None => (None, S depth, best)
    end
  end.

(** [find_descend] read as a function of the node alone: the bits taken
    below [n] (the 0-child whenever there is one), and the payload found at
    their end, if the descent does not run off the tree. *)
Fixpoint descend_bits (n : node) {struct n} : path * option Z :=
  match node_pop n with
  | Some v => ([], Some v)
  | None =>
    match children n false with
    | Some c => let (l, r) := descend_bits c in (false :: l, r)
    | None =>
      match children n true with
      | Some c => let (l, r) := descend_bits c in (true :: l, r)
      | None => ([], None)
      end
    end
  end.

(** The trie position and the well-formedness of an entry. *)
Definition position (e : prefix_and_pop) : path := prefix_bits (prefix e).

Definition valid_entry (e : prefix_and_pop) : Prop :=
  is_unsigned (prefix_length (prefix e)).

(** ** Shape invariant

    [has_payload n]: some node of the subtree rooted at [n] holds a payload.
    [supported n]: every node strictly below [n] has a payload in its own
    subtree. *)

Fixpoint has_payload (n : node) : bool :=
  match n with
  | mk_node p c0 c1 =>
    match p with Some _ => true | None => false end
    || match c0 with Some m => has_payload m | None => false end
    || match c1 with Some m => has_payload m | None => false end
  end.

Fixpoint supported (n : node) : bool :=
  match n with
  | mk_node _ c0 c1 =>
    match c0 with Some m => has_payload m && supported m | None => true end
    && match c1 with Some m => has_payload m && supported m | None => true end
  end.

(** The descent of the specification: from a node, go to the 0-child when
    there is one and otherwise to the 1-child, and stop at the first node
    that holds a payload.  [leftmost_payload n l v]: the descent from [n]
    takes the bits [l] and stops on the payload [v]. *)
Inductive leftmost_payload : node -> path -> Z -> Prop :=
| leftmost_here n v :
    node_pop n = Some v -> leftmost_payload n [] v
| leftmost_zero n c l v :
    node_pop n = None -> children n false = Some c ->
    leftmost_payload c l v -> leftmost_payload n (false :: l) v
| leftmost_one n c l v :
    node_pop n = None -> children n false = None ->
    children n true = Some c ->
    leftmost_payload c l v -> leftmost_payload n (true :: l) v.

(** The first loop of [find] ends with [current] absent and [best] unset:
    the walk left the trie and recorded no payload on its way. *)
Definition walk_runs_off (root : node) (q : address_prefix) : Prop :=
  st_current (find_walk root q 0 None 0) = None /\
  st_best (find_walk root q 0 None 0) = None.

(** ** Sample tables (the examples of the specification) *)

(** [2001:db8::], [2001:db9::] and [2001:db8:8000::] as 128-bit values. *)
Definition addr_2001_db8 : Z := Z.shiftl 0x20010db8 96.
Definition addr_2001_db9 : Z := Z.shiftl 0x20010db9 96.
Definition addr_2001_db8_8000 : Z := Z.shiftl 0x20010db88000 80.

Definition default_table : list prefix_and_pop :=
  [ mk_entry (mk_prefix 0 0) 1; mk_entry (mk_prefix addr_2001_db8 32) 2 ].

Definition sibling_table : list prefix_and_pop :=
  [ mk_entry (mk_prefix addr_2001_db8 33) 5;
    mk_entry (mk_prefix addr_2001_db8_8000 33) 6 ].

Definition nested_table : list prefix_and_pop :=
  [ mk_entry (mk_prefix 0 1) 1; mk_entry (mk_prefix 0 2) 2;
    mk_entry (mk_prefix 0 3) 3 ].

Definition loaded (es : list prefix_and_pop) : node :=
  match load es empty_node with
  | Done t => t
  | _ => empty_node
  end.

Definition default_trie : node := Eval vm_compute in loaded default_table.
Definition sibling_trie : node := Eval vm_compute in loaded sibling_table.
Definition nested_trie : node := Eval vm_compute in loaded nested_table.

(** ** Auxiliary notions *)

(** [std::abort] as the failure of an optional result. *)
Definition outcome_of {A : Type} (o : option A) : outcome A :=
  match o with
  | Some a => Done a
  | None => Abort
  end.

(** A best match with its depth as an [unsigned]. *)
Definition lift_best (b : option (Z * nat)) : option pop_and_prefix_length :=
  match b with
  | Some (v, d) => Some (mk_match v (wrap32 (Z.of_nat d)))
  | None => None
  end.

(** A property of the node behind a child pointer, if there is one. *)
Definition holds_on_child (P : node -> Prop) (c : option node) : Prop :=
  match c with
  | Some m => P m
  | None => True
  end.

(** Sequencing of steps that may abort. *)
Definition and_then {A B : Type} (o : option A) (f : A -> option B)
    : option B :=
  match o with
  | Some a => f a
  | None => None
  end.

(** The child [insert] continues in: the existing one or a fresh node. *)
Definition child_or_empty (n : node) (b : bool) : node :=
  match children n b with
  | Some c => c
  | None => empty_node
  end.

(** No payload is held strictly below the root along [bs]. *)
Definition no_payload_along (n : node) (bs : path) : Prop :=
  forall l1 l2, bs = l1 ++ l2 -> l1 <> [] -> payload_at n l1 = None.

(** [l1] is the longest non-empty prefix of [bs] whose node holds a
    payload, and [v] is that payload. *)
Definition deepest_payload (n : node) (bs l1 : path) (v : Z) : Prop :=
  (exists l2, bs = l1 ++ l2) /\ l1 <> [] /\ payload_at n l1 = Some v /\
  forall l1' l2', bs = l1' ++ l2' -> (length l1 < length l1')%nat ->
                  payload_at n l1' = None.

(** ** Draining a cursor

    The bits a caller collects with the loop
    [for (bit = pop_bit(); bit; bit = pop_bit())], as [insert] runs it. *)
Fixpoint pop_all (fuel : nat) (p : address_prefix) : list bool :=
  match fuel with
  | O => []
  | S fuel' =>
    match pop_bit p with
    | (Some bit, p') => bit :: pop_all fuel' p'
    | (None, _) => []
    end
  end.

(** ** Size of a trie: the nodes owned by [n], itself included. *)
Fixpoint node_count (n : node) : nat :=
  match n with
  | mk_node _ c0 c1 =>
    S (match c0 with Some m => node_count m | None => O end
       + match c1 with Some m => node_count m | None => O end)
  end.

(** ** The byte loops of [parse_address] and [address_to_string]

    [std::uint8_t] is [Z] reduced modulo 2^8; a byte buffer is a list. *)

Definition wrap8 (x : Z) : Z := x mod 2 ^ 8.

(** The loop of [parse_address] over the buffer [inet_pton] filled:
    [result = (result << 8) | buf[i]]. *)
Definition parse_address_loop (buf : list Z) : Z :=
  fold_left (fun result b => Z.lor (wrap128 (Z.shiftl result 8)) b) buf 0.

(** [buf[i] = v] *)
Fixpoint store (buf : list Z) (i : nat) (v : Z) : list Z :=
  match buf, i with
  | [], _ => []
  | _ :: rest, O => v :: rest
  | x :: rest, S i' => x :: store rest i' v
  end.

(** The loop of [address_to_string]: [n] iterations remain, [i] is the
    loop counter; each stores the low byte of [a] at index [16 - i - 1] and
    shifts [a] right by 8. *)
Fixpoint address_to_string_loop (n i : nat) (address_buf : list Z) (a : Z)
    : list Z :=
  match n with
  | O => address_buf
  | S n' =>
    address_to_string_loop n' (S i)
      (store address_buf (16 - i - 1) (wrap8 a)) (Z.shiftr a 8)
  end.

(** The buffer handed to [inet_ntop]: 16 zero bytes, then the loop. *)
Definition address_bytes (a : Z) : list Z :=
  address_to_string_loop 16 0 (repeat 0 16) a.

(** The [n] low bytes of [a], most significant first. *)
Fixpoint big_endian (n : nat) (a : Z) : list Z :=
  match n with
  | O => []
  | S n' => big_endian n' (a / 256) ++ [a mod 256]
  end.

(** ** Order of trie positions

    [path_le l l']: [l] is a prefix of [l'], or at the first bit where they
    differ [l] has 0 and [l'] has 1. *)
Fixpoint path_le (l l' : path) : bool :=
  match l, l' with
  | [], _ => true
  | _ :: _, [] => false
  | b :: r, b' :: r' => if Bool.eqb b b' then path_le r r' else negb b
  end.

(** * Properties *)

(** ** The cursor *)

Lemma highest_bit_test (a : Z) :
  negb (Z.land a highest_bit =? 0) = Z.testbit a 127.
Proof.
  unfold highest_bit.
  rewrite Z.shiftl_1_l.
  destruct (Z.testbit a 127) eqn:E.
  - apply negb_true_iff, Z.eqb_neq. intros H.
    assert (T : Z.testbit (Z.land a (2 ^ 127)) 127 = true).
    { rewrite Z.land_spec, E, Z.pow2_bits_true by lia. reflexivity. }
    rewrite H, Z.bits_0 in T. discriminate.
  - apply negb_false_iff, Z.eqb_eq, Z.bits_inj'. intros n Hn.
    rewrite Z.land_spec, Z.bits_0.
    destruct (Z.eq_dec n 127) as [->|Hne].
    + rewrite E. reflexivity.
    + rewrite Z.pow2_bits_false by lia. apply andb_false_r.
Qed.

Lemma pop_bit_zero (p : address_prefix) :
  prefix_length p = 0 ->
  pop_bit p = (None, mk_prefix (address p) (2 ^ 32 - 1)).
Proof.
  intros H. unfold pop_bit. rewrite H. reflexivity.
Qed.

Lemma pop_bit_pos (p : address_prefix) :
  0 < prefix_length p < 2 ^ 32 ->
  pop_bit p =
    (Some (Z.testbit (address p) 127),
     mk_prefix (wrap128 (Z.shiftl (address p) 1)) (prefix_length p - 1)).
Proof.
  intros H. unfold pop_bit.
  destruct (Z.eqb_spec (prefix_length p) 0) as [E|_]; [lia|].
  rewrite highest_bit_test. unfold wrap32.
  rewrite Z.mod_small by lia. reflexivity.
Qed.

Lemma shifted_bit (a i : Z) :
  i < 128 -> Z.testbit (wrap128 (Z.shiftl a 1)) i = Z.testbit a (i - 1).
Proof.
  intros H. unfold wrap128.
  destruct (Z.neg_nonneg_cases i) as [Hneg|Hpos].
  - rewrite !Z.testbit_neg_r by lia. reflexivity.
  - rewrite Z.mod_pow2_bits_low by lia.
    apply Z.shiftl_spec; lia.
Qed.

Lemma prefix_bits_pos (a len : Z) :
  0 < len ->
  prefix_bits (mk_prefix a len) =
    Z.testbit a 127 ::
    prefix_bits (mk_prefix (wrap128 (Z.shiftl a 1)) (len - 1)).
Proof.
  intros H. unfold prefix_bits. cbn [address prefix_length].
  replace (Z.to_nat len) with (S (Z.to_nat (len - 1))) by lia.
  cbn [seq map]. f_equal.
  rewrite <- seq_shift, map_map.
  apply map_ext. intros i.
  rewrite shifted_bit by lia. f_equal. lia.
Qed.

Lemma prefix_bits_zero (a len : Z) :
  len <= 0 -> prefix_bits (mk_prefix a len) = [].
Proof.
  intros H. unfold prefix_bits. cbn [prefix_length].
  replace (Z.to_nat len) with O by lia. reflexivity.
Qed.

Lemma prefix_bits_length (p : address_prefix) :
  length (prefix_bits p) = Z.to_nat (prefix_length p).
Proof.
  unfold prefix_bits. rewrite length_map, length_seq. reflexivity.
Qed.

Lemma prefix_bits_nth (p : address_prefix) (i : nat) :
  (i < Z.to_nat (prefix_length p))%nat ->
  nth i (prefix_bits p) false = Z.testbit (address p) (127 - Z.of_nat i).
Proof.
  intros H. unfold prefix_bits.
  rewrite (nth_indep _ false
             (Z.testbit (address p) (127 - Z.of_nat 0)))
    by (rewrite length_map, length_seq; exact H).
  rewrite (map_nth (fun i => Z.testbit (address p) (127 - Z.of_nat i))).
  rewrite seq_nth by exact H. reflexivity.
Qed.

(** [is_prefix_of] on the addresses themselves: [P] is no longer than [Q]
    and their addresses agree on the leading [prefix_length P] bits. *)
Lemma is_prefix_of_bits (P Q : address_prefix) :
  is_unsigned (prefix_length P) -> is_unsigned (prefix_length Q) ->
  (is_prefix_of P Q <->
   prefix_length P <= prefix_length Q /\
   forall i, 0 <= i < prefix_length P ->
     Z.testbit (address P) (127 - i) = Z.testbit (address Q) (127 - i)).
Proof.
  unfold is_unsigned. intros UP UQ. split.
  - intros [rest E].
    assert (Hlen : (Z.to_nat (prefix_length P) <=
                    Z.to_nat (prefix_length Q))%nat).
    { apply (f_equal (@length bool)) in E.
      rewrite length_app, !prefix_bits_length in E. lia. }
    split; [lia|]. intros i Hi.
    replace i with (Z.of_nat (Z.to_nat i)) by lia.
    rewrite <- !prefix_bits_nth by lia.
    rewrite E, app_nth1 by (rewrite prefix_bits_length; lia).
    reflexivity.
  - intros [Hle Hbits].
    exists (map (fun i => Z.testbit (address Q) (127 - Z.of_nat i))
              (seq (Z.to_nat (prefix_length P))
                   (Z.to_nat (prefix_length Q) - Z.to_nat (prefix_length P)))).
    unfold prefix_bits.
    replace (Z.to_nat (prefix_length Q))
      with (Z.to_nat (prefix_length P) +
            (Z.to_nat (prefix_length Q) - Z.to_nat (prefix_length P)))%nat
      at 1 by lia.
    rewrite seq_app, map_app. f_equal.
    apply map_ext_in. intros i Hi. apply in_seq in Hi.
    symmetry. apply Hbits. lia.
Qed.

(** ** The loops as functions of the bit path *)

Lemma insert_loop_bits (fuel : nat) :
  forall (p : address_prefix) (current : node) (v : Z),
    is_unsigned (prefix_length p) ->
    (Z.to_nat (prefix_length p) < fuel)%nat ->
    insert_loop fuel p current v =
      outcome_of (insert_bits (prefix_bits p) v current).
Proof.
  unfold is_unsigned.
  induction fuel as [|fuel IH]; intros [a len] current v Hu Hf;
    cbn [prefix_length] in *; [lia|].
  cbn [insert_loop].
  destruct (Z.eq_dec len 0) as [->|Hne].
  - rewrite pop_bit_zero by reflexivity.
    rewrite prefix_bits_zero by lia. cbn [insert_bits].
    destruct (node_pop current); reflexivity.
  - rewrite pop_bit_pos by (cbn [prefix_length]; lia).
    cbn [address prefix_length].
    rewrite prefix_bits_pos by lia. cbn [insert_bits].
    rewrite IH by (cbn [prefix_length]; lia).
    destruct (insert_bits _ v _); reflexivity.
Qed.

Lemma insert_bits_of (e : prefix_and_pop) (root : node) :
  is_unsigned (prefix_length (prefix e)) ->
  insert e root = outcome_of (insert_bits (prefix_bits (prefix e)) (pop e) root).
Proof.
  intros Hu. unfold insert. apply insert_loop_bits; [assumption|lia].
Qed.

Lemma wrap32_succ (d : nat) :
  wrap32 (wrap32 (Z.of_nat d) + 1) = wrap32 (Z.of_nat (S d)).
Proof.
  unfold wrap32. rewrite Nat2Z.inj_succ. unfold Z.succ.
  rewrite Zplus_mod_idemp_l. reflexivity.
Qed.

Lemma walk_bits_depth (bs : path) :
  forall current d best c d' b,
    walk_bits current bs d best = (c, d', b) ->
    (d <= d' <= d + length bs)%nat.
Proof.
  induction bs as [|x bs IH]; intros current d best c d' b H; cbn in H.
  - inversion H; subst. cbn. lia.
  - destruct (children current x) as [next|].
    + apply IH in H. cbn [length]. lia.
    + inversion H; subst. cbn [length]. lia.
Qed.

Lemma find_walk_bits (n : nat) :
  forall (p : address_prefix) (current : node) (d : nat)
         (best : option (Z * nat)) (k : nat),
    is_unsigned (prefix_length p) ->
    Z.to_nat (prefix_length p) = n ->
    find_walk current p (wrap32 (Z.of_nat d)) (lift_best best) k =
      let '(c, d', b) := walk_bits current (prefix_bits p) d best in
      mk_state c (wrap32 (Z.of_nat d')) (lift_best b) (k + (d' - d)).
Proof.
  unfold is_unsigned.
  induction n as [|n IH]; intros [a len] current d best k Hu Hn;
    cbn [prefix_length] in *.
  - assert (len = 0) as -> by lia.
    destruct current as [cp c0 c1]. cbn [find_walk].
    rewrite pop_bit_zero by reflexivity.
    rewrite prefix_bits_zero by lia. cbn [walk_bits].
    f_equal. lia.
  - destruct current as [cp c0 c1]. cbn [find_walk].
    rewrite pop_bit_pos by (cbn [prefix_length]; lia).
    cbn [address prefix_length].
    rewrite prefix_bits_pos by lia. cbn [walk_bits].
    rewrite wrap32_succ.
    destruct (children (mk_node cp c0 c1) (Z.testbit a 127)) as [next|].
    + replace (match node_pop next with
               | Some v => Some (mk_match v (wrap32 (Z.of_nat (S d))))
               | None => lift_best best
               end)
        with (lift_best (match node_pop next with
                         | Some v => Some (v, S d)
                         | None => best
                         end))
        by (destruct (node_pop next); reflexivity).
      rewrite IH by (cbn [prefix_length]; lia).
      destruct (walk_bits next _ (S d) _) as [[c d'] b] eqn:E.
      f_equal.
      apply walk_bits_depth in E. lia.
    + f_equal. lia.
Qed.

(** ** Induction on nodes *)

Lemma node_induction (P : node -> Prop) :
  (forall p c0 c1,
      holds_on_child P c0 -> holds_on_child P c1 -> P (mk_node p c0 c1)) ->
  forall n, P n.
Proof.
  intros H. fix IH 1. intros [p c0 c1].
  apply H.
  - destruct c0 as [m|]; [apply IH|exact I].
  - destruct c1 as [m|]; [apply IH|exact I].
Qed.

(** ** Elementary facts on nodes and paths *)

Lemma children_set_child_same n b c : children (set_child n b c) b = Some c.
Proof. destruct n, b; reflexivity. Qed.

Lemma children_set_child_other n b b' c :
  b <> b' -> children (set_child n b c) b' = children n b'.
Proof. destruct n, b, b'; intros H; try reflexivity; contradiction. Qed.

Lemma node_pop_set_child n b c : node_pop (set_child n b c) = node_pop n.
Proof. destruct n, b; reflexivity. Qed.

Lemma children_set_pop n v b : children (set_pop n v) b = children n b.
Proof. destruct n; reflexivity. Qed.

Lemma node_pop_set_pop n v : node_pop (set_pop n v) = Some v.
Proof. destruct n; reflexivity. Qed.

Lemma set_child_twice n b c c' :
  set_child (set_child n b c) b c' = set_child n b c'.
Proof. destruct n, b; reflexivity. Qed.

Lemma set_child_swap n b b' c c' :
  b <> b' ->
  set_child (set_child n b c) b' c' = set_child (set_child n b' c') b c.
Proof. destruct n, b, b'; intros H; try reflexivity; contradiction. Qed.

Lemma set_child_set_pop n b c v :
  set_child (set_pop n v) b c = set_pop (set_child n b c) v.
Proof. destruct n, b; reflexivity. Qed.

Lemma lookup_app n l1 l2 :
  lookup n (l1 ++ l2) =
    match lookup n l1 with
    | Some m => lookup m l2
    | None => None
    end.
Proof.
  revert n. induction l1 as [|b l1 IH]; intros n; cbn; [reflexivity|].
  destruct (children n b); [apply IH|reflexivity].
Qed.

Lemma lookup_empty_node bs : bs <> [] -> lookup empty_node bs = None.
Proof. destruct bs as [|[] bs]; [contradiction| |]; reflexivity. Qed.

Lemma payload_at_empty_node bs : payload_at empty_node bs = None.
Proof. destruct bs as [|[] bs]; reflexivity. Qed.

(** ** What [insert_bits] does to the trie *)

Lemma insert_bits_fails bs : forall v n,
  insert_bits bs v n = None <-> payload_at n bs <> None.
Proof.
  induction bs as [|b bs IH]; intros v n; cbn.
  - unfold payload_at; cbn. destruct (node_pop n); split; congruence.
  - unfold payload_at in *; cbn.
    destruct (children n b) as [c|] eqn:E.
    + specialize (IH v c).
      destruct (insert_bits bs v c); intuition congruence.
    + specialize (IH v empty_node).
      fold (payload_at empty_node bs) in IH.
      rewrite payload_at_empty_node in IH.
      destruct (insert_bits bs v empty_node); intuition congruence.
Qed.

Lemma payload_at_cons n b bs :
  payload_at n (b :: bs) =
    match children n b with
    | Some c => payload_at c bs
    | None => None
    end.
Proof. unfold payload_at; cbn. destruct (children n b); reflexivity. Qed.

Lemma payload_at_nil n : payload_at n [] = node_pop n.
Proof. reflexivity. Qed.

Lemma insert_bits_payload_same bs : forall v n n',
  insert_bits bs v n = Some n' -> payload_at n' bs = Some v.
Proof.
  induction bs as [|b bs IH]; intros v n n' H; cbn in H.
  - destruct (node_pop n); [discriminate|]. inversion H; subst.
    rewrite payload_at_nil. apply node_pop_set_pop.
  - destruct (insert_bits bs v _) as [c'|] eqn:E; [|discriminate].
    inversion H; subst.
    rewrite payload_at_cons, children_set_child_same. eauto.
Qed.

Lemma insert_bits_payload_other bs : forall v n n' bs',
  insert_bits bs v n = Some n' -> bs' <> bs ->
  payload_at n' bs' = payload_at n bs'.
Proof.
  induction bs as [|b bs IH]; intros v n n' bs' H Hne; cbn in H.
  - destruct (node_pop n); [discriminate|]. inversion H; subst.
    destruct bs' as [|b' bs']; [contradiction|].
    rewrite !payload_at_cons, children_set_pop. reflexivity.
  - destruct (insert_bits bs v _) as [c'|] eqn:E; [|discriminate].
    inversion H; subst. clear H.
    destruct bs' as [|b' bs'].
    + rewrite !payload_at_nil. apply node_pop_set_child.
    + rewrite !payload_at_cons.
      destruct (bool_dec b b') as [<-|Hb].
      * rewrite children_set_child_same.
        rewrite (IH _ _ _ bs' E) by congruence.
        destruct (children n b); [reflexivity|].
        apply payload_at_empty_node.
      * rewrite children_set_child_other by assumption. reflexivity.
Qed.

(** Nodes after an insertion: those that were there, and those on the
    inserted path. *)
Lemma insert_bits_lookup bs : forall v n n' bs' m,
  insert_bits bs v n = Some n' ->
  lookup n' bs' = Some m ->
  lookup n bs' <> None \/ exists rest, bs = bs' ++ rest.
Proof.
  induction bs as [|b bs IH]; intros v n n' bs' m H L; cbn in H.
  - destruct (node_pop n); [discriminate|]. inversion H; subst.
    destruct bs' as [|b' bs']; [left; cbn; congruence|].
    cbn in L. rewrite children_set_pop in L. left. cbn.
    destruct (children n b'); congruence.
  - destruct (insert_bits bs v _) as [c'|] eqn:E; [|discriminate].
    inversion H; subst. clear H.
    destruct bs' as [|b' bs']; [right; exists (b :: bs); reflexivity|].
    cbn in L. cbn [lookup].
    destruct (bool_dec b b') as [<-|Hb].
    + rewrite children_set_child_same in L.
      destruct (IH _ _ _ _ _ E L) as [Hl|[rest ->]].
      * destruct (children n b); [left; assumption|].
        destruct bs' as [|x bs'];
          [right; exists bs; reflexivity|].
        rewrite lookup_empty_node in Hl by discriminate. congruence.
      * right. exists rest. reflexivity.
    + rewrite children_set_child_other in L by assumption.
      left. destruct (children n b'); congruence.
Qed.

Lemma insert_bits_keeps_nodes p : forall v n n' bs,
  insert_bits p v n = Some n' ->
  lookup n bs <> None -> lookup n' bs <> None.
Proof.
  induction p as [|x p IH]; intros v n n' bs I; cbn in I.
  - destruct (node_pop n); [discriminate|]. inversion I; subst.
    destruct bs as [|b bs]; [discriminate|].
    cbn. rewrite children_set_pop. auto.
  - destruct (insert_bits p v _) as [c'|] eqn:E; [|discriminate].
    inversion I; subst.
    destruct bs as [|b bs]; [discriminate|]. cbn.
    destruct (bool_dec x b) as [->|Hb].
    + rewrite children_set_child_same.
      destruct (children n b) as [c|]; [|congruence].
      eapply IH. eassumption.
    + rewrite children_set_child_other by assumption. auto.
Qed.

(** Insertions commute, also in their failures. *)
Lemma insert_bits_twice bs v w n :
  and_then (insert_bits bs v n) (insert_bits bs w) = None.
Proof.
  destruct (insert_bits bs v n) as [n'|] eqn:E; [|reflexivity]. cbn.
  apply insert_bits_fails.
  rewrite (insert_bits_payload_same _ _ _ _ E). discriminate.
Qed.

Lemma insert_bits_same_bit b bs1 bs2 v1 v2 n :
  and_then (insert_bits (b :: bs1) v1 n) (insert_bits (b :: bs2) v2) =
  option_map (set_child n b)
    (and_then (insert_bits bs1 v1 (child_or_empty n b)) (insert_bits bs2 v2)).
Proof.
  cbn [insert_bits]. fold (child_or_empty n b).
  destruct (insert_bits bs1 v1 (child_or_empty n b)) as [c1|]; cbn;
    [|reflexivity].
  rewrite children_set_child_same.
  destruct (insert_bits bs2 v2 c1); cbn; [|reflexivity].
  rewrite set_child_twice. reflexivity.
Qed.

Lemma insert_bits_comm bs1 : forall bs2 v1 v2 n,
  and_then (insert_bits bs1 v1 n) (insert_bits bs2 v2) =
  and_then (insert_bits bs2 v2 n) (insert_bits bs1 v1).
Proof.
  induction bs1 as [|b1 bs1 IH]; intros [|b2 bs2] v1 v2 n.
  - rewrite !insert_bits_twice. reflexivity.
  - cbn. destruct (node_pop n) eqn:P; cbn.
    + destruct (insert_bits bs2 v2 _); cbn; [|reflexivity].
      rewrite node_pop_set_child, P. reflexivity.
    + rewrite children_set_pop.
      destruct (insert_bits bs2 v2 _); cbn; [|reflexivity].
      rewrite node_pop_set_child, P, set_child_set_pop. reflexivity.
  - cbn. destruct (node_pop n) eqn:P; cbn.
    + destruct (insert_bits bs1 v1 _); cbn; [|reflexivity].
      rewrite node_pop_set_child, P. reflexivity.
    + rewrite children_set_pop.
      destruct (insert_bits bs1 v1 _); cbn; [|reflexivity].
      rewrite node_pop_set_child, P, set_child_set_pop. reflexivity.
  - destruct (bool_dec b1 b2) as [<-|Hb].
    + rewrite !insert_bits_same_bit, IH. reflexivity.
    + cbn [insert_bits].
      set (c1 := match children n b1 with Some c => c | None => empty_node end).
      set (c2 := match children n b2 with Some c => c | None => empty_node end).
      destruct (insert_bits bs1 v1 c1) as [c1'|] eqn:E1;
        destruct (insert_bits bs2 v2 c2) as [c2'|] eqn:E2; cbn;
        rewrite ?children_set_child_other by congruence;
        fold c1; fold c2; rewrite ?E1, ?E2; try reflexivity.
      rewrite set_child_swap by assumption. reflexivity.
Qed.

(** ** The descent *)

Lemma find_descend_bits : forall n d k,
  find_descend n (wrap32 (Z.of_nat d)) k =
    let (l, r) := descend_bits n in
    match r with
    | Some v =>
      mk_state (lookup n l) (wrap32 (Z.of_nat (d + length l)))
        (Some (mk_match v (wrap32 (Z.of_nat (d + length l)))))
        (k + length l)
    | None =>
      mk_state None (wrap32 (Z.of_nat (d + length l + 1))) None
        (k + length l + 1)
    end.
Proof.
  induction n as [p c0 c1 IH0 IH1] using node_induction. intros d k.
  destruct p as [v|];
    cbn [find_descend descend_bits node_pop children length lookup].
  - rewrite !Nat.add_0_r. reflexivity.
  - rewrite wrap32_succ.
    destruct c0 as [c|]; [|destruct c1 as [c|]];
      cbn [holds_on_child] in *.
    + rewrite IH0. destruct (descend_bits c) as [l [v|]];
        cbn [length lookup children];
        rewrite <- ?Nat.add_succ_comm, ?Nat.add_assoc; reflexivity.
    + rewrite IH1. destruct (descend_bits c) as [l [v|]];
        cbn [length lookup children];
        rewrite <- ?Nat.add_succ_comm, ?Nat.add_assoc; reflexivity.
    + cbn [length]. rewrite !Nat.add_0_r, !Nat.add_1_r. reflexivity.
Qed.

Lemma descend_bits_leftmost : forall n l v,
  descend_bits n = (l, Some v) <-> leftmost_payload n l v.
Proof.
  induction n as [p c0 c1 IH0 IH1] using node_induction. intros l v.
  split.
  - destruct p as [w|]; cbn.
    + intros H. inversion H; subst. constructor. reflexivity.
    + destruct c0 as [c|]; [|destruct c1 as [c|]]; cbn in *.
      * destruct (descend_bits c) as [l' r] eqn:E. intros H.
        inversion H; subst. eapply leftmost_zero; try reflexivity.
        apply IH0. reflexivity.
      * destruct (descend_bits c) as [l' r] eqn:E. intros H.
        inversion H; subst. eapply leftmost_one; try reflexivity.
        apply IH1. reflexivity.
      * discriminate.
  - intros H. inversion H; subst; cbn in *; subst.
    + reflexivity.
    + apply IH0 in H2. rewrite H2. reflexivity.
    + apply IH1 in H3. rewrite H3. reflexivity.
Qed.

Lemma leftmost_payload_at n l v :
  leftmost_payload n l v -> payload_at n l = Some v.
Proof.
  induction 1 as [n v H|n c l v Hp Hc _ IH|n c l v Hp H0 Hc _ IH].
  - rewrite payload_at_nil. assumption.
  - rewrite payload_at_cons, Hc. assumption.
  - rewrite payload_at_cons, Hc. assumption.
Qed.

Lemma leftmost_payload_unique n l v :
  leftmost_payload n l v ->
  forall l' v', leftmost_payload n l' v' -> l' = l /\ v' = v.
Proof.
  intros H l' v' H'.
  apply descend_bits_leftmost in H. apply descend_bits_leftmost in H'.
  rewrite H in H'. inversion H'. split; reflexivity.
Qed.

(** ** Shape invariant *)

Lemma supported_empty_node : supported empty_node = true.
Proof. reflexivity. Qed.

Lemma has_payload_set_pop n v : has_payload (set_pop n v) = true.
Proof. destruct n; reflexivity. Qed.

Lemma supported_set_pop n v : supported (set_pop n v) = supported n.
Proof. destruct n; reflexivity. Qed.

Lemma has_payload_set_child n b c :
  has_payload c = true -> has_payload (set_child n b c) = true.
Proof.
  intros H. destruct n as [p c0 c1], b; cbn; rewrite H;
    rewrite ?orb_true_r; reflexivity.
Qed.

Lemma supported_children n b c :
  supported n = true -> children n b = Some c ->
  has_payload c = true /\ supported c = true.
Proof.
  destruct n as [p c0 c1]. cbn. intros H E.
  apply andb_true_iff in H. destruct H as [H0 H1].
  destruct b; subst; [apply andb_true_iff in H1|apply andb_true_iff in H0];
    assumption.
Qed.

Lemma supported_child_or_empty n b :
  supported n = true -> supported (child_or_empty n b) = true.
Proof.
  intros H. unfold child_or_empty.
  destruct (children n b) as [c|] eqn:E; [|reflexivity].
  eapply supported_children; eassumption.
Qed.

Lemma supported_set_child n b c :
  supported n = true -> has_payload c = true -> supported c = true ->
  supported (set_child n b c) = true.
Proof.
  destruct n as [p c0 c1]. cbn. intros H Hp Hs.
  apply andb_true_iff in H. destruct H as [H0 H1].
  destruct b; cbn; rewrite Hp, Hs; cbn; rewrite ?H0, ?H1; reflexivity.
Qed.

Lemma insert_bits_has_payload bs : forall v n n',
  insert_bits bs v n = Some n' -> has_payload n' = true.
Proof.
  induction bs as [|b bs IH]; intros v n n' H; cbn in H.
  - destruct (node_pop n); [discriminate|]. inversion H.
    apply has_payload_set_pop.
  - destruct (insert_bits bs v _) as [c'|] eqn:E; [|discriminate].
    inversion H. apply has_payload_set_child. eauto.
Qed.

Lemma insert_bits_supported bs : forall v n n',
  insert_bits bs v n = Some n' -> supported n = true -> supported n' = true.
Proof.
  induction bs as [|b bs IH]; intros v n n' H S; cbn in H.
  - destruct (node_pop n); [discriminate|]. inversion H.
    rewrite supported_set_pop. assumption.
  - fold (child_or_empty n b) in H.
    destruct (insert_bits bs v _) as [c'|] eqn:E; [|discriminate].
    inversion H. apply supported_set_child; [assumption| |].
    + eapply insert_bits_has_payload; eassumption.
    + eapply IH; [eassumption|]. apply supported_child_or_empty. assumption.
Qed.

Lemma supported_lookup bs : forall n m,
  supported n = true -> lookup n bs = Some m -> bs <> [] ->
  has_payload m = true /\ supported m = true.
Proof.
  induction bs as [|b bs IH]; intros n m S L Hne; [contradiction|].
  cbn in L. destruct (children n b) as [c|] eqn:E; [|discriminate].
  destruct (supported_children _ _ _ S E) as [Hp Hs].
  destruct bs as [|b' bs]; [inversion L; subst; auto|].
  eapply IH; [exact Hs|exact L|discriminate].
Qed.


Lemma payload_at_has_payload l : forall n v,
  payload_at n l = Some v -> has_payload n = true.
Proof.
  induction l as [|b l IH]; intros [p c0 c1] v H.
  - rewrite payload_at_nil in H. cbn in H. subst. reflexivity.
  - rewrite payload_at_cons in H. cbn in H. cbn.
    destruct b.
    + destruct c1 as [c|]; [|discriminate]. rewrite (IH _ _ H).
      apply orb_true_r.
    + destruct c0 as [c|]; [|discriminate]. rewrite (IH _ _ H).
      rewrite orb_true_r. reflexivity.
Qed.

Lemma supported_descend : forall n,
  supported n = true -> has_payload n = true ->
  exists l v, descend_bits n = (l, Some v).
Proof.
  induction n as [p c0 c1 IH0 IH1] using node_induction.
  intros S H. destruct p as [v|]; [exists [], v; reflexivity|].
  cbn in S. apply andb_true_iff in S. destruct S as [S0 S1].
  cbn in H. cbn.
  destruct c0 as [c|].
  - apply andb_true_iff in S0. destruct S0 as [Hp Hs].
    destruct (IH0 Hs Hp) as (l & v & E). rewrite E. eauto.
  - destruct c1 as [c|]; [|discriminate].
    apply andb_true_iff in S1. destruct S1 as [Hp Hs].
    destruct (IH1 Hs Hp) as (l & v & E). rewrite E. eauto.
Qed.

(** A root without any payload below it has no child, so the descent from
    it leaves the tree at once. *)
Lemma unsupported_descend n :
  supported n = true -> has_payload n = false ->
  descend_bits n = ([], None).
Proof.
  destruct n as [p c0 c1]. cbn. intros S H.
  apply orb_false_iff in H. destruct H as [H H1].
  apply orb_false_iff in H. destruct H as [Hp H0].
  destruct p; [discriminate|].
  apply andb_true_iff in S. destruct S as [S0 S1].
  destruct c0 as [c|]; [rewrite H0 in S0; discriminate|].
  destruct c1 as [c|]; [rewrite H1 in S1; discriminate|].
  reflexivity.
Qed.

(** ** The walk along the query's bits *)

Lemma walk_bits_current bs : forall current d best c d' b,
  walk_bits current bs d best = (c, d', b) ->
  c = lookup current bs /\ (c <> None -> d' = (d + length bs)%nat).
Proof.
  induction bs as [|x bs IH]; intros current d best c d' b H; cbn in H |- *.
  - inversion H; subst. split; [reflexivity|]. intros _. lia.
  - destruct (children current x) as [next|].
    + apply IH in H. destruct H as [-> Hd]. split; [reflexivity|].
      intros Hc. rewrite (Hd Hc). lia.
    + inversion H; subst. split; [reflexivity|]. congruence.
Qed.

Lemma walk_bits_best bs : forall current d best c d' b,
  walk_bits current bs d best = (c, d', b) ->
  (b = best /\ no_payload_along current bs) \/
  (exists l1 v, deepest_payload current bs l1 v /\
                b = Some (v, (d + length l1)%nat)).
Proof.
  unfold no_payload_along, deepest_payload.
  induction bs as [|x bs IH]; intros current d best c d' b H; cbn in H.
  - inversion H; subst. left. split; [reflexivity|].
    intros [|y l1] l2 E Hne; [contradiction|discriminate].
  - destruct (children current x) as [next|] eqn:Ec.
    + apply IH in H. destruct H as [[-> Hnone]|(l1 & v & Hd & ->)].
      * destruct (node_pop next) as [v|] eqn:Ep.
        -- right. exists [x], v. split; [|cbn; do 2 f_equal; lia].
           split; [exists bs; reflexivity|].
           split; [discriminate|].
           split; [rewrite payload_at_cons, Ec; exact Ep|].
           intros [|y [|z l1']] l2' E Hlen; cbn in Hlen; try lia.
           inversion E; subst. rewrite payload_at_cons, Ec.
           apply (Hnone (z :: l1') l2'); [reflexivity|discriminate].
        -- left. split; [reflexivity|].
           intros [|y l1] l2 E Hne; [contradiction|].
           inversion E; subst. rewrite payload_at_cons, Ec.
           destruct l1 as [|z l1]; [exact Ep|].
           apply (Hnone (z :: l1) l2); [reflexivity|discriminate].
      * destruct Hd as ((l2 & ->) & Hne & Hp & Hmax).
        right. exists (x :: l1), v. split; [|cbn; do 2 f_equal; lia].
        split; [exists l2; reflexivity|].
        split; [discriminate|].
        split; [rewrite payload_at_cons, Ec; exact Hp|].
        intros [|y l1'] l2' E Hlen; cbn in Hlen; [lia|].
        inversion E; subst. rewrite payload_at_cons, Ec.
        apply (Hmax l1' l2'); [assumption|lia].
    + inversion H; subst. left. split; [reflexivity|].
      intros [|y l1] l2 E Hne; [contradiction|].
      inversion E; subst. rewrite payload_at_cons, Ec. reflexivity.
Qed.

(** ** Loading a table *)

Lemma insert_terminates (e : prefix_and_pop) (root : node) :
  valid_entry e -> insert e root <> OutOfFuel.
Proof.
  intros V. rewrite insert_bits_of by exact V.
  destruct (insert_bits _ _ root); discriminate.
Qed.

Lemma load_cons (e : prefix_and_pop) es root :
  valid_entry e ->
  load (e :: es) root =
    match insert_bits (position e) (pop e) root with
    | Some root' => load es root'
    | None => Abort
    end.
Proof.
  intros V. cbn [load]. rewrite insert_bits_of by exact V.
  unfold position. destruct (insert_bits _ _ root); reflexivity.
Qed.

Lemma load_cons_done (e : prefix_and_pop) es root t :
  valid_entry e ->
  load (e :: es) root = Done t ->
  exists root', insert_bits (position e) (pop e) root = Some root' /\
                load es root' = Done t.
Proof.
  intros V. rewrite load_cons by exact V.
  destruct (insert_bits _ _ root) as [root'|]; [eauto|discriminate].
Qed.

Lemma load_terminates es : forall root,
  Forall valid_entry es -> load es root <> OutOfFuel.
Proof.
  induction es as [|e es IH]; intros root V; [discriminate|].
  inversion V; subst. rewrite load_cons by assumption.
  destruct (insert_bits _ _ root); [auto|discriminate].
Qed.

Lemma load_supported es : forall root t,
  Forall valid_entry es -> load es root = Done t ->
  supported root = true -> supported t = true.
Proof.
  induction es as [|e es IH]; intros root t V L S.
  - inversion L; subst. assumption.
  - inversion V; subst.
    destruct (load_cons_done _ _ _ _ H1 L) as (root' & I & L').
    eapply IH; eauto using insert_bits_supported.
Qed.

Lemma load_payload es : forall root t bs v,
  Forall valid_entry es -> load es root = Done t ->
  (payload_at t bs = Some v <->
   payload_at root bs = Some v \/
   exists e, In e es /\ position e = bs /\ pop e = v).
Proof.
  induction es as [|e es IH]; intros root t bs v V L.
  - inversion L; subst. split; [auto|].
    intros [H|(e & [] & _)]. assumption.
  - inversion V; subst.
    destruct (load_cons_done _ _ _ _ H1 L) as (root' & I & L').
    rewrite (IH _ _ bs v H2 L').
    destruct (list_eq_dec bool_dec bs (position e)) as [->|Hne].
    + rewrite (insert_bits_payload_same _ _ _ _ I).
      assert (F : payload_at root (position e) = None).
      { destruct (payload_at root (position e)) eqn:P; [|reflexivity].
        assert (N : insert_bits (position e) (pop e) root = None)
          by (apply insert_bits_fails; congruence).
        congruence. }
      rewrite F. split.
      * intros [H|(e' & Hin & Hp & Hv)].
        -- right. exists e. inversion H. cbn. auto.
        -- right. exists e'. cbn. auto.
      * intros [H|(e' & [<-|Hin] & Hp & Hv)]; [discriminate| |].
        -- left. congruence.
        -- right. exists e'. auto.
    + rewrite (insert_bits_payload_other _ _ _ _ _ I Hne). split.
      * intros [H|(e' & Hin & Hp & Hv)]; [auto|].
        right. exists e'. cbn. auto.
      * intros [H|(e' & [<-|Hin] & Hp & Hv)]; [auto|congruence|].
        right. exists e'. auto.
Qed.

Lemma load_lookup es : forall root t bs m,
  Forall valid_entry es -> load es root = Done t ->
  lookup t bs = Some m ->
  lookup root bs <> None \/
  exists e rest, In e es /\ position e = bs ++ rest.
Proof.
  induction es as [|e es IH]; intros root t bs m V L H.
  - inversion L; subst. left. congruence.
  - inversion V; subst.
    destruct (load_cons_done _ _ _ _ H2 L) as (root' & I & L').
    destruct (IH _ _ _ _ H3 L' H) as [Hl|(e' & rest & Hin & Hp)].
    + destruct (lookup root' bs) as [m'|] eqn:E; [|congruence].
      destruct (insert_bits_lookup _ _ _ _ _ _ I E) as [Hr|[rest Hr]];
        [left; assumption|].
      right. exists e, rest. cbn. auto.
    + right. exists e', rest. cbn. auto.
Qed.

(** A successful load means the positions were free and pairwise
    distinct, and conversely. *)
Lemma load_done_nodup es : forall root t,
  Forall valid_entry es -> load es root = Done t ->
  NoDup (map position es) /\
  forall e, In e es -> payload_at root (position e) = None.
Proof.
  induction es as [|e es IH]; intros root t V L.
  - split; [constructor|]. intros e [].
  - inversion V; subst.
    destruct (load_cons_done _ _ _ _ H1 L) as (root' & I & L').
    destruct (IH _ _ H2 L') as [ND Free].
    assert (Fe : payload_at root (position e) = None).
    { destruct (payload_at root (position e)) eqn:P; [|reflexivity].
      assert (N : insert_bits (position e) (pop e) root = None)
        by (apply insert_bits_fails; congruence).
      congruence. }
    assert (Fresh : ~ In (position e) (map position es)).
    { intros Hin. apply in_map_iff in Hin. destruct Hin as (e' & Hp & Hin).
      specialize (Free e' Hin). rewrite Hp in Free.
      rewrite (insert_bits_payload_same _ _ _ _ I) in Free. discriminate. }
    split; [constructor; assumption|].
    intros e' [<-|Hin]; [assumption|].
    rewrite <- (insert_bits_payload_other _ _ _ _ (position e') I).
    + apply Free. assumption.
    + intros E. apply Fresh. rewrite <- E. apply in_map. assumption.
Qed.

Lemma load_nodup_done es : forall root,
  Forall valid_entry es -> NoDup (map position es) ->
  (forall e, In e es -> payload_at root (position e) = None) ->
  exists t, load es root = Done t.
Proof.
  induction es as [|e es IH]; intros root V ND Free.
  - exists root. reflexivity.
  - inversion V; subst. inversion ND; subst.
    rewrite load_cons by assumption.
    destruct (insert_bits (position e) (pop e) root) as [root'|] eqn:I.
    + apply IH; [assumption|assumption|].
      intros e' Hin.
      rewrite (insert_bits_payload_other _ _ _ _ (position e') I).
      * apply Free. right. assumption.
      * intros E. apply H3. rewrite <- E. apply in_map. assumption.
    + apply insert_bits_fails in I. exfalso. apply I.
      apply Free. left. reflexivity.
Qed.

(** The order of the entries does not matter. *)
Lemma load_permutation es1 es2 :
  Permutation es1 es2 ->
  Forall valid_entry es1 ->
  forall root, load es1 root = load es2 root.
Proof.
  induction 1 as [|e l l' HP IH|e1 e2 l|l l' l'' HP1 IH1 HP2 IH2];
    intros V root.
  - reflexivity.
  - inversion V; subst. rewrite !load_cons by assumption.
    destruct (insert_bits _ _ root); [apply IH; assumption|reflexivity].
  - inversion V as [|? ? V2 V']; subst. inversion V' as [|? ? V1 Vl]; subst.
    rewrite (load_cons e2), (load_cons e1) by assumption.
    pose proof (insert_bits_comm (position e2) (position e1)
                  (pop e2) (pop e1) root) as C.
    destruct (insert_bits (position e2) (pop e2) root) as [r2|];
      destruct (insert_bits (position e1) (pop e1) root) as [r1|];
      cbn in C; rewrite ?load_cons by assumption; rewrite ?C;
      try reflexivity.
    rewrite <- C. reflexivity.
  - rewrite IH1 by assumption. apply IH2.
    eapply Permutation_Forall; eassumption.
Qed.

(** ** The examples of the specification *)

Example default_table_loads : load default_table empty_node = Done default_trie.
Proof. vm_compute. reflexivity. Qed.

Example sibling_table_loads : load sibling_table empty_node = Done sibling_trie.
Proof. vm_compute. reflexivity. Qed.

Example nested_table_loads : load nested_table empty_node = Done nested_trie.
Proof. vm_compute. reflexivity. Qed.

Example find_host_under_db8 :
  find default_trie (mk_prefix (addr_2001_db8 + 1) 128) = Some (mk_match 2 32).
Proof. vm_compute. reflexivity. Qed.

Example find_db9_no_entry :
  find default_trie (mk_prefix addr_2001_db9 32) = None.
Proof. vm_compute. reflexivity. Qed.

Example find_sibling_parent :
  find sibling_trie (mk_prefix addr_2001_db8 32) = Some (mk_match 5 33).
Proof. vm_compute. reflexivity. Qed.

(** * The claims *)

(** ** The cursor *)

(** C5: [pop_bit] on a cursor whose remaining length is 0 returns none and
    leaves the address as it is; on any other cursor it returns the most
    significant bit of the address (bit 127), decrements the remaining
    length by one and shifts the address left by one bit within 128 bits,
    so that the next call returns what was bit 126. *)
Theorem pop_bit_contract (p : address_prefix) :
  is_unsigned (prefix_length p) ->
  (prefix_length p = 0 ->
     fst (pop_bit p) = None /\
     address (snd (pop_bit p)) = address p) /\
  (prefix_length p <> 0 ->
     fst (pop_bit p) = Some (Z.testbit (address p) 127) /\
     prefix_length (snd (pop_bit p)) = prefix_length p - 1 /\
     address (snd (pop_bit p)) = (address p * 2) mod 2 ^ 128 /\
     (2 <= prefix_length p ->
        fst (pop_bit (snd (pop_bit p))) = Some (Z.testbit (address p) 126))).
Proof.
  intros U. unfold is_unsigned in U. split; intros H.
  - rewrite pop_bit_zero by assumption. split; reflexivity.
  - rewrite pop_bit_pos by lia. cbn [fst snd address prefix_length].
    repeat split.
    + unfold wrap128. rewrite Z.shiftl_mul_pow2 by lia. reflexivity.
    + intros H2. rewrite pop_bit_pos by (cbn [prefix_length]; lia).
      cbn [fst address]. rewrite shifted_bit by lia. reflexivity.
Qed.

Lemma pop_bit_contract_witness :
  is_unsigned (prefix_length (mk_prefix addr_2001_db8 32)) /\
  fst (pop_bit (mk_prefix addr_2001_db8 32)) = Some false /\
  fst (pop_bit (snd (pop_bit (mk_prefix addr_2001_db8 32)))) = Some false.
Proof.
  assert (U : is_unsigned (prefix_length (mk_prefix addr_2001_db8 32)))
    by (unfold is_unsigned; cbn; lia).
  split; [exact U|].
  destruct (pop_bit_contract (mk_prefix addr_2001_db8 32) U) as [_ H].
  destruct H as (H1 & _ & _ & H2); [cbn; lia|].
  split; [exact H1|]. apply H2. cbn. lia.
Defined.

(** C9: exhaustion is not sticky.  On a cursor of remaining length 0,
    [pop_bit] returns none but stores the decremented length, which wraps
    to 2^32 - 1; a second call then returns a bit (bit 127 of the address)
    and shifts the address. *)
Theorem pop_bit_exhaustion_wraps (a : Z) :
  let p1 := snd (pop_bit (mk_prefix a 0)) in
  fst (pop_bit (mk_prefix a 0)) = None /\
  prefix_length p1 = 2 ^ 32 - 1 /\
  address p1 = a /\
  fst (pop_bit p1) = Some (Z.testbit a 127) /\
  prefix_length (snd (pop_bit p1)) = 2 ^ 32 - 2 /\
  address (snd (pop_bit p1)) = wrap128 (Z.shiftl a 1).
Proof.
  cbn zeta. rewrite pop_bit_zero by reflexivity. cbn [fst snd].
  rewrite pop_bit_pos by (cbn; lia).
  cbn [fst snd address prefix_length].
  repeat split; reflexivity.
Qed.

(** ** Insertion *)

(** C6: if the node at the entry's trie position already holds a payload,
    [insert] aborts (no trie is left to use); otherwise it succeeds, that
    node holds the entry's PoP afterwards and the payload at every other
    position is as before.  In particular a second entry with the same
    address and length aborts the load. *)
Theorem insert_contract (e : prefix_and_pop) (root : node) :
  valid_entry e ->
  (payload_at root (position e) <> None -> insert e root = Abort) /\
  (payload_at root (position e) = None ->
     exists root',
       insert e root = Done root' /\
       payload_at root' (position e) = Some (pop e) /\
       (forall bs, bs <> position e ->
                   payload_at root' bs = payload_at root bs) /\
       (forall bs, lookup root bs <> None -> lookup root' bs <> None)) /\
  (forall e', prefix e' = prefix e -> load [e; e'] root = Abort).
Proof.
  intros V. rewrite insert_bits_of by exact V. fold (position e).
  split; [|split].
  - intros H. apply insert_bits_fails with (v := pop e) in H.
    rewrite H. reflexivity.
  - intros H.
    destruct (insert_bits (position e) (pop e) root) as [root'|] eqn:I.
    + exists root'. split; [reflexivity|].
      split; [eapply insert_bits_payload_same; eassumption|].
      split; [intros bs Hne; eapply insert_bits_payload_other; eassumption|].
      intros bs. eapply insert_bits_keeps_nodes. eassumption.
    + apply insert_bits_fails in I. contradiction.
  - intros e' Ep.
    assert (V' : valid_entry e') by (unfold valid_entry; rewrite Ep; exact V).
    rewrite load_cons by exact V.
    destruct (insert_bits (position e) (pop e) root) as [root'|] eqn:I;
      [|reflexivity].
    rewrite load_cons by exact V'.
    replace (position e') with (position e)
      by (unfold position; rewrite Ep; reflexivity).
    assert (N : insert_bits (position e) (pop e') root' = None).
    { apply insert_bits_fails.
      rewrite (insert_bits_payload_same _ _ _ _ I). discriminate. }
    rewrite N. reflexivity.
Qed.

Lemma insert_contract_witness :
  valid_entry (mk_entry (mk_prefix addr_2001_db8 32) 7) /\
  insert (mk_entry (mk_prefix addr_2001_db8 32) 7) default_trie = Abort /\
  load [mk_entry (mk_prefix addr_2001_db8 32) 7;
        mk_entry (mk_prefix addr_2001_db8 32) 9] empty_node = Abort.
Proof.
  assert (V : valid_entry (mk_entry (mk_prefix addr_2001_db8 32) 7))
    by (unfold valid_entry, is_unsigned; cbn; lia).
  split; [exact V|]. split.
  - apply (insert_contract _ default_trie V). vm_compute. discriminate.
  - apply (insert_contract _ empty_node V). reflexivity.
Defined.

(** C7: for entries with pairwise distinct trie positions, every order of
    insertion loads successfully and yields the same trie, node for node,
    hence the same answer of [find] to every query. *)
Theorem load_order_independent (es1 es2 : list prefix_and_pop) :
  Forall valid_entry es1 ->
  NoDup (map position es1) ->
  Permutation es1 es2 ->
  exists t1 t2,
    load es1 empty_node = Done t1 /\
    load es2 empty_node = Done t2 /\
    t1 = t2 /\
    forall q, find_run t1 q = find_run t2 q /\ find t1 q = find t2 q.
Proof.
  intros V ND HP.
  destruct (load_nodup_done es1 empty_node V ND) as [t L].
  { intros e _. apply payload_at_empty_node. }
  exists t, t. split; [exact L|].
  split; [rewrite <- (load_permutation _ _ HP V); exact L|].
  split; [reflexivity|]. intros q. split; reflexivity.
Qed.

Lemma load_order_independent_witness :
  Forall valid_entry sibling_table /\
  NoDup (map position sibling_table) /\
  Permutation sibling_table (rev sibling_table) /\
  load sibling_table empty_node = load (rev sibling_table) empty_node.
Proof.
  assert (V : Forall valid_entry sibling_table)
    by (repeat constructor; unfold valid_entry, is_unsigned; cbn; lia).
  assert (ND : NoDup (map position sibling_table)).
  { repeat constructor; cbn; [|tauto].
    intros [H|[]]. vm_compute in H. discriminate. }
  assert (HP : Permutation sibling_table (rev sibling_table))
    by apply Permutation_rev.
  split; [exact V|]. split; [exact ND|]. split; [exact HP|].
  destruct (load_order_independent _ _ V ND HP)
    as (t1 & t2 & L1 & L2 & E & _).
  rewrite L1, L2, E. reflexivity.
Defined.

(** ** [find] in terms of the bit path *)

Lemma lift_best_none b : lift_best b = None <-> b = None.
Proof. destruct b as [[v d]|]; cbn; split; congruence. Qed.

Lemma bits_length_unsigned (p : address_prefix) :
  is_unsigned (prefix_length p) ->
  Z.of_nat (length (prefix_bits p)) = prefix_length p /\
  wrap32 (Z.of_nat (length (prefix_bits p))) = prefix_length p.
Proof.
  unfold is_unsigned. intros U. rewrite prefix_bits_length.
  rewrite Z2Nat.id by lia. split; [reflexivity|].
  unfold wrap32. apply Z.mod_small. lia.
Qed.

Lemma find_walk_summary (t : node) (q : address_prefix) :
  is_unsigned (prefix_length q) ->
  exists d' b,
    find_walk t q 0 None 0 =
      mk_state (lookup t (prefix_bits q)) (wrap32 (Z.of_nat d'))
               (lift_best b) d' /\
    (d' <= length (prefix_bits q))%nat /\
    (lookup t (prefix_bits q) <> None -> d' = length (prefix_bits q)) /\
    ((b = None /\ no_payload_along t (prefix_bits q)) \/
     exists l1 v, deepest_payload t (prefix_bits q) l1 v /\
                  b = Some (v, length l1)).
Proof.
  intros U.
  pose proof (find_walk_bits _ q t O None O U eq_refl) as W.
  change (wrap32 (Z.of_nat 0)) with 0 in W. cbn [lift_best] in W.
  destruct (walk_bits t (prefix_bits q) 0 None) as [[c d'] b] eqn:E.
  exists d', b.
  destruct (walk_bits_current _ _ _ _ _ _ _ E) as [-> Hd].
  pose proof (walk_bits_depth _ _ _ _ _ _ _ E) as Hle.
  rewrite W. split; [f_equal; lia|].
  split; [lia|]. split; [exact Hd|].
  destruct (walk_bits_best _ _ _ _ _ _ _ E) as [H|(l1 & v & H & ->)];
    [left; exact H|right; eauto].
Qed.

Lemma find_descend_best n d k :
  st_best (find_descend n (wrap32 (Z.of_nat d)) k) =
    match snd (descend_bits n) with
    | Some v =>
      Some (mk_match v
              (wrap32 (Z.of_nat (d + length (fst (descend_bits n))))))
    | None => None
    end.
Proof.
  rewrite find_descend_bits.
  destruct (descend_bits n) as [l [v|]]; reflexivity.
Qed.

Lemma payload_at_app n l1 l2 m :
  lookup n l1 = Some m -> payload_at n (l1 ++ l2) = payload_at m l2.
Proof.
  intros H. unfold payload_at. rewrite lookup_app, H. reflexivity.
Qed.

Lemma payload_at_lookup n bs v :
  payload_at n bs = Some v -> lookup n bs <> None.
Proof. unfold payload_at. destruct (lookup n bs); congruence. Qed.

Lemma same_length_prefix {A : Type} (l1 l2 r1 r2 : list A) :
  l1 ++ r1 = l2 ++ r2 -> length l1 = length l2 -> l1 = l2 /\ r1 = r2.
Proof.
  revert l2. induction l1 as [|a l1 IH]; intros [|b l2] E L;
    try discriminate; [auto|].
  cbn in E, L. injection E as -> E.
  destruct (IH l2 E) as [-> ->]; [lia|]. auto.
Qed.

Lemma nodup_position_unique es (e e' : prefix_and_pop) :
  NoDup (map position es) -> In e es -> In e' es ->
  position e' = position e -> e' = e.
Proof.
  induction es as [|x es IH]; intros ND H H' E; [contradiction|].
  cbn in ND. inversion ND as [|? ? Fresh ND']; subst.
  destruct H as [->|H], H' as [->|H']; [reflexivity| | |auto].
  - exfalso. apply Fresh. rewrite <- E. apply in_map. assumption.
  - exfalso. apply Fresh. rewrite E. apply in_map. assumption.
Qed.

(** The table read off the trie: payloads are exactly the entries. *)
Lemma table_payload es t bs v :
  Forall valid_entry es -> load es empty_node = Done t ->
  (payload_at t bs = Some v <->
   exists e, In e es /\ position e = bs /\ pop e = v).
Proof.
  intros V L. rewrite (load_payload es empty_node t bs v V L).
  rewrite payload_at_empty_node. split; [intros [H|H]|auto];
    [discriminate|exact H].
Qed.

(** ** Lookups *)

(** C4: [find] applied to the prefix of a table entry returns that entry's
    PoP with the entry's own length as matched length; for a /0 entry the
    payload is the root's, found by the descent at depth 0. *)
Theorem find_exact_match (es : list prefix_and_pop) (t : node)
    (e : prefix_and_pop) :
  Forall valid_entry es ->
  load es empty_node = Done t ->
  In e es ->
  0 <= prefix_length (prefix e) <= 128 ->
  find t (prefix e) = Some (mk_match (pop e) (prefix_length (prefix e))) /\
  (prefix_length (prefix e) = 0 ->
     st_best (find_walk t (prefix e) 0 None 0) = None /\
     st_best (find_descend t 0 0) = Some (mk_match (pop e) 0)).
Proof.
  intros V L Hin Hlen.
  assert (U : is_unsigned (prefix_length (prefix e)))
    by (unfold is_unsigned; lia).
  assert (P : payload_at t (position e) = Some (pop e))
    by (apply (table_payload es); eauto).
  destruct (find_walk_summary t (prefix e) U)
    as (d' & b & W & _ & Hd & Hb).
  fold (position e) in *.
  destruct (bits_length_unsigned _ U) as [Hl Hw]. fold (position e) in *.
  destruct (lookup t (position e)) as [m|] eqn:Lk;
    [|apply payload_at_lookup in P; contradiction].
  specialize (Hd ltac:(discriminate)). subst d'.
  assert (Root : position e = [] ->
                 st_best (find_descend t 0 0) = Some (mk_match (pop e) 0)).
  { intros E. rewrite E, payload_at_nil in P.
    destruct t as [p c0 c1]. cbn in P. subst p. reflexivity. }
  split.
  - unfold find, find_run. rewrite W. cbn [st_current st_best st_depth].
    destruct Hb as [[-> Hnone]|(l1 & v & Hdeep & ->)]; cbn [lift_best].
    + destruct (position e) as [|x bs] eqn:E.
      * inversion Lk; subst m. cbn [length transitions].
        change (wrap32 (Z.of_nat 0)) with 0.
        rewrite Root by reflexivity. cbn in Hl. rewrite <- Hl. reflexivity.
      * rewrite (Hnone (x :: bs) []) in P;
          [discriminate|symmetry; apply app_nil_r|discriminate].
    + cbn [st_best]. destruct Hdeep as ((l2 & E2) & Hne & Hp & Hmax).
      destruct (Nat.lt_ge_cases (length l1) (length (position e)))
        as [Hlt|Hge].
      * rewrite (Hmax (position e) []) in P;
          [discriminate|symmetry; apply app_nil_r|exact Hlt].
      * assert (l2 = []).
        { apply (f_equal (@length bool)) in E2.
          rewrite length_app in E2. destruct l2; [reflexivity|].
          cbn in E2. lia. }
        subst l2. rewrite app_nil_r in E2. subst l1.
        rewrite Hw. congruence.
  - intros Z0. assert (E : position e = []).
    { destruct (position e); [reflexivity|]. cbn in Hl. lia. }
    split; [|apply Root; exact E].
    rewrite W. cbn [st_best]. apply lift_best_none.
    destruct Hb as [[-> _]|(l1 & v & ((l2 & E2) & Hne & _) & _)];
      [reflexivity|].
    rewrite E in E2. destruct l1; [contradiction|discriminate].
Qed.

Lemma find_exact_match_witness :
  Forall valid_entry default_table /\
  load default_table empty_node = Done default_trie /\
  find default_trie (mk_prefix 0 0) = Some (mk_match 1 0) /\
  find default_trie (mk_prefix addr_2001_db8 32) = Some (mk_match 2 32).
Proof.
  assert (V : Forall valid_entry default_table)
    by (repeat constructor; unfold valid_entry, is_unsigned; cbn; lia).
  split; [exact V|]. split; [exact default_table_loads|]. split.
  - refine (proj1 (find_exact_match default_table default_trie
                     (mk_entry (mk_prefix 0 0) 1) V default_table_loads _ _));
      cbn; [tauto|lia].
  - refine (proj1 (find_exact_match default_table default_trie
                     (mk_entry (mk_prefix addr_2001_db8 32) 2) V
                     default_table_loads _ _));
      cbn; [tauto|lia].
Defined.

Lemma is_prefix_of_length (P Q : address_prefix) :
  is_unsigned (prefix_length P) -> is_unsigned (prefix_length Q) ->
  is_prefix_of P Q -> prefix_length P <= prefix_length Q.
Proof.
  intros UP UQ [rest E].
  apply (f_equal (@length bool)) in E. rewrite length_app in E.
  destruct (bits_length_unsigned _ UP) as [HP _].
  destruct (bits_length_unsigned _ UQ) as [HQ _]. lia.
Qed.

(** C3, as the code has it: when the table holds [e1] and [e2], the prefix
    of [e1] is a strict prefix of that of [e2] and both cover the query,
    [find] returns the longest table entry covering the query.  That entry
    is at least as long as [e2], hence never [e1]; it is [e2] itself when
    no longer entry covers the query. *)
Theorem find_longest_prefix (es : list prefix_and_pop) (t : node)
    (e1 e2 : prefix_and_pop) (q : address_prefix) :
  Forall valid_entry es ->
  load es empty_node = Done t ->
  is_unsigned (prefix_length q) ->
  In e1 es -> In e2 es ->
  is_prefix_of (prefix e1) (prefix e2) ->
  prefix_length (prefix e1) < prefix_length (prefix e2) ->
  is_prefix_of (prefix e2) q ->
  (exists e,
     In e es /\ is_prefix_of (prefix e) q /\
     (forall e', In e' es -> is_prefix_of (prefix e') q ->
                 prefix_length (prefix e') <= prefix_length (prefix e)) /\
     find t q = Some (mk_match (pop e) (prefix_length (prefix e))) /\
     prefix_length (prefix e1) < prefix_length (prefix e)) /\
  ((forall e', In e' es -> is_prefix_of (prefix e') q ->
               prefix_length (prefix e') <= prefix_length (prefix e2)) ->
   find t q = Some (mk_match (pop e2) (prefix_length (prefix e2)))).
Proof.
  intros V L U In1 In2 P12 Hlt P2q.
  assert (Vall : forall e, In e es -> valid_entry e)
    by (apply Forall_forall; exact V).
  assert (Pay : forall e, In e es -> payload_at t (position e) = Some (pop e))
    by (intros e He; apply (table_payload es); eauto).
  destruct (find_walk_summary t q U) as (d' & b & W & _ & _ & Hb).
  assert (Len : forall e, In e es ->
            Z.of_nat (length (position e)) = prefix_length (prefix e) /\
            wrap32 (Z.of_nat (length (position e))) = prefix_length (prefix e))
    by (intros e He; apply bits_length_unsigned, Vall, He).
  assert (U1 := Vall _ In1). unfold valid_entry, is_unsigned in U1.
  assert (Ne2 : position e2 <> []).
  { intros E. destruct (Len _ In2) as [H _]. rewrite E in H. cbn in H. lia. }
  destruct P2q as [rest2 E2]. fold (position e2) in E2.
  destruct Hb as [[_ Hnone]|(l1 & v & Hdeep & ->)].
  { pose proof (Pay e2 In2) as Q2. rewrite (Hnone _ _ E2 Ne2) in Q2.
    discriminate. }
  destruct Hdeep as ((l2 & El) & Hne & Hp & Hmax).
  apply (table_payload es t l1 v V L) in Hp.
  destruct Hp as (e & He & Pe & Ve). subst l1 v.
  assert (F : find t q = Some (mk_match (pop e) (prefix_length (prefix e)))).
  { unfold find, find_run. rewrite W. cbn [st_current st_best lift_best].
    destruct (Len _ He) as [_ ->].
    destruct (lookup t (prefix_bits q)); reflexivity. }
  assert (Max : forall e', In e' es -> is_prefix_of (prefix e') q ->
                prefix_length (prefix e') <= prefix_length (prefix e)).
  { intros e' He' [rest' E'].
    destruct (Nat.lt_ge_cases (length (position e)) (length (position e')))
      as [Hl|Hl].
    - pose proof (Pay e' He') as Q'. fold (position e') in E'.
      rewrite (Hmax _ _ E' Hl) in Q'. discriminate.
    - destruct (Len _ He) as [<- _]. destruct (Len _ He') as [<- _]. lia. }
  assert (Ge : prefix_length (prefix e2) <= prefix_length (prefix e))
    by (apply Max; [exact In2|exists rest2; exact E2]).
  split.
  - exists e. split; [exact He|]. split; [exists l2; exact El|].
    split; [exact Max|]. split; [exact F|lia].
  - intros Longest.
    assert (Le : prefix_length (prefix e) <= prefix_length (prefix e2))
      by (apply Longest; [exact He|exists l2; exact El]).
    assert (Same : position e = position e2).
    { rewrite El in E2. apply same_length_prefix in E2; [tauto|].
      destruct (Len _ He) as [H _]. destruct (Len _ In2) as [H' _]. lia. }
    pose proof (Pay _ He) as Q1. pose proof (Pay _ In2) as Q2.
    rewrite Same in Q1. rewrite Q1 in Q2. inversion Q2 as [Q].
    rewrite F, Q. f_equal. f_equal. lia.
Qed.

Lemma find_longest_prefix_witness :
  Forall valid_entry nested_table /\
  load nested_table empty_node = Done nested_trie /\
  find nested_trie (mk_prefix 0 2) = Some (mk_match 2 2).
Proof.
  assert (V : Forall valid_entry nested_table)
    by (repeat constructor; unfold valid_entry, is_unsigned; cbn; lia).
  split; [exact V|]. split; [exact nested_table_loads|].
  refine (proj2 (find_longest_prefix nested_table nested_trie
                   (mk_entry (mk_prefix 0 1) 1) (mk_entry (mk_prefix 0 2) 2)
                   (mk_prefix 0 2) V nested_table_loads _ _ _ _ _ _) _).
  - unfold is_unsigned; cbn; lia.
  - cbn; tauto.
  - cbn; tauto.
  - exists [false]. reflexivity.
  - cbn; lia.
  - exists []. reflexivity.
  - intros e' [<-|[<-|[<-|[]]]] [rest E]; cbn; try lia.
    vm_compute in E. destruct rest; discriminate.
Defined.

(** C3 as stated fails: with entries 0/1, 0/2 and 0/3 (PoPs 1, 2, 3), the
    first two are nested and both cover the query 0/3, yet [find] returns
    PoP 3, the payload of the still longer third entry, not PoP 2. *)
Lemma find_longest_prefix_counterexample :
  ~ (forall (es : list prefix_and_pop) (t : node) (e1 e2 : prefix_and_pop)
            (q : address_prefix),
        Forall (fun e => 0 <= prefix_length (prefix e) <= 128) es ->
        load es empty_node = Done t ->
        0 <= prefix_length q <= 128 ->
        In e1 es -> In e2 es ->
        is_prefix_of (prefix e1) (prefix e2) ->
        prefix_length (prefix e1) < prefix_length (prefix e2) ->
        is_prefix_of (prefix e2) q ->
        exists m, find t q = Some m /\ matched_pop m = pop e2).
Proof.
  intros H.
  destruct (H nested_table nested_trie
              (mk_entry (mk_prefix 0 1) 1) (mk_entry (mk_prefix 0 2) 2)
              (mk_prefix 0 3)) as (m & F & P).
  - repeat constructor; cbn; lia.
  - exact nested_table_loads.
  - cbn; lia.
  - cbn; tauto.
  - cbn; tauto.
  - exists [false]. reflexivity.
  - cbn; lia.
  - exists [false]. reflexivity.
  - vm_compute in F. inversion F; subst m. cbn in P. discriminate.
Qed.

(** ** The two ways a lookup can end without a match *)

Lemma find_walk_state (t : node) (q : address_prefix) :
  is_unsigned (prefix_length q) ->
  let s := find_walk t q 0 None 0 in
  st_current s = lookup t (prefix_bits q) /\
  (st_best s = None <-> no_payload_along t (prefix_bits q)) /\
  (transitions s <= length (prefix_bits q))%nat /\
  (lookup t (prefix_bits q) <> None ->
     st_depth s = wrap32 (Z.of_nat (length (prefix_bits q))) /\
     transitions s = length (prefix_bits q)) /\
  (forall m, st_best s = Some m -> 1 <= matched_length m).
Proof.
  intros U. cbn zeta.
  destruct (find_walk_summary t q U) as (d' & b & W & Hle & Hd & Hb).
  rewrite W. cbn [st_current st_best st_depth transitions].
  split; [reflexivity|]. split; [|split; [exact Hle|split]].
  - rewrite lift_best_none.
    destruct Hb as [[-> Hnone]|(l1 & v & Hdeep & ->)]; [tauto|].
    split; [discriminate|]. intros Hnone.
    destruct Hdeep as ((l2 & E) & Hne & Hp & _).
    rewrite (Hnone _ _ E Hne) in Hp. discriminate.
  - intros Hl. rewrite (Hd Hl). split; reflexivity.
  - intros m Hm.
    destruct Hb as [[-> _]|(l1 & v & Hdeep & ->)]; [discriminate|].
    cbn in Hm. inversion Hm; subst m. cbn [matched_length].
    destruct Hdeep as ((l2 & E) & Hne & _).
    apply (f_equal (@length bool)) in E. rewrite length_app in E.
    destruct (bits_length_unsigned _ U) as [HQ _].
    unfold is_unsigned in U. unfold wrap32.
    rewrite Z.mod_small by lia.
    destruct l1; [contradiction|]. cbn [length]. lia.
Qed.

Lemma walk_runs_off_iff (t : node) (q : address_prefix) :
  is_unsigned (prefix_length q) ->
  (walk_runs_off t q <->
   lookup t (prefix_bits q) = None /\ no_payload_along t (prefix_bits q)).
Proof.
  intros U. unfold walk_runs_off.
  destruct (find_walk_state t q U) as (-> & -> & _). tauto.
Qed.

Lemma find_run_landing (t : node) (q : address_prefix) (n : node) :
  is_unsigned (prefix_length q) ->
  lookup t (prefix_bits q) = Some n ->
  no_payload_along t (prefix_bits q) ->
  find_run t q =
    find_descend n (wrap32 (Z.of_nat (length (prefix_bits q))))
                 (length (prefix_bits q)).
Proof.
  intros U Lk Hnone. unfold find_run.
  destruct (find_walk_state t q U) as (Hc & Hb & _ & Hd & _).
  apply Hb in Hnone. rewrite Hc, Lk, Hnone.
  destruct Hd as [-> ->]; [congruence|reflexivity].
Qed.

Lemma find_run_no_landing (t : node) (q : address_prefix) :
  is_unsigned (prefix_length q) ->
  lookup t (prefix_bits q) = None \/ ~ no_payload_along t (prefix_bits q) ->
  find_run t q = find_walk t q 0 None 0.
Proof.
  intros U H. unfold find_run.
  destruct (find_walk_state t q U) as (Hc & Hb & _).
  rewrite Hc.
  destruct (lookup t (prefix_bits q)) as [n|]; [|reflexivity].
  destruct (st_best (find_walk t q 0 None 0)); [reflexivity|].
  destruct H as [H|H]; [discriminate|]. exfalso. apply H, Hb. reflexivity.
Qed.

Lemma table_supported es t :
  Forall valid_entry es -> load es empty_node = Done t -> supported t = true.
Proof.
  intros V L. eapply load_supported; eauto.
Qed.

Lemma table_root_has_payload es t :
  Forall valid_entry es -> load es empty_node = Done t ->
  es <> [] -> has_payload t = true.
Proof.
  intros V L Hne. destruct es as [|e es]; [contradiction|].
  apply (payload_at_has_payload (position e) t (pop e)).
  apply (table_payload (e :: es)); [assumption|assumption|].
  exists e. cbn. auto.
Qed.

Lemma descend_from_table es t bs n :
  Forall valid_entry es -> load es empty_node = Done t ->
  lookup t bs = Some n -> bs <> [] \/ es <> [] ->
  exists l v, descend_bits n = (l, Some v).
Proof.
  intros V L Lk H.
  pose proof (table_supported es t V L) as S.
  destruct bs as [|b bs].
  - inversion Lk; subst n. apply supported_descend; [exact S|].
    apply (table_root_has_payload es); try assumption.
    destruct H as [H|H]; [contradiction|exact H].
  - destruct (supported_lookup (b :: bs) t n S Lk) as [Hp Hs];
      [discriminate|].
    apply supported_descend; assumption.
Qed.

(** C1, as the code has it: [find] returns no entry exactly when the walk
    along the query's bits leaves the trie with no payload recorded, or the
    table is empty and the query has length 0 (the walk then lands on the
    bare root and the descent steps off it).  The walk leaves the trie with
    no payload recorded exactly when the trie has no node at the query's
    position and no node strictly below the root on the query's path holds
    a payload; a payload recorded by the walk has depth at least 1, so the
    root's payload (a /0 entry) is never recorded by it, and a query that
    leaves the trie this way gets no entry even if the table has a /0
    entry. *)
Theorem find_no_entry_iff (es : list prefix_and_pop) (t : node)
    (q : address_prefix) :
  Forall valid_entry es ->
  load es empty_node = Done t ->
  is_unsigned (prefix_length q) ->
  (find t q = None <->
   walk_runs_off t q \/ (es = [] /\ prefix_length q = 0)) /\
  (walk_runs_off t q <->
   lookup t (prefix_bits q) = None /\ no_payload_along t (prefix_bits q)) /\
  (forall m, st_best (find_walk t q 0 None 0) = Some m ->
             1 <= matched_length m) /\
  (forall v, payload_at t [] = Some v -> walk_runs_off t q ->
             find t q = None).
Proof.
  intros V L U.
  pose proof (walk_runs_off_iff t q U) as Off.
  destruct (find_walk_state t q U) as (Hc & Hb & _ & _ & Hm).
  destruct (bits_length_unsigned _ U) as [Hlen _].
  assert (Bits0 : prefix_length q = 0 <-> prefix_bits q = []).
  { destruct (prefix_bits q); cbn in Hlen; split; intros H;
      try reflexivity; try discriminate; lia. }
  assert (Main : find t q = None <->
                 walk_runs_off t q \/ (es = [] /\ prefix_length q = 0)).
  { destruct (lookup t (prefix_bits q)) as [n|] eqn:Lk.
    - assert (NoOff : ~ walk_runs_off t q)
        by (rewrite Off; intros [H _]; discriminate).
      destruct (st_best (find_walk t q 0 None 0)) as [m|] eqn:B.
      + unfold find. rewrite find_run_no_landing
          by (try assumption; right; intros H; apply Hb in H; discriminate).
        rewrite B. split; [discriminate|].
        intros [H|[-> Z0]]; [contradiction|].
        exfalso. specialize (Hm m eq_refl).
        assert (N : no_payload_along t (prefix_bits q)).
        { intros l1 l2 E Hne. apply Bits0 in Z0. rewrite Z0 in E.
          destruct l1; [contradiction|discriminate]. }
        apply Hb in N. discriminate.
      + assert (N : no_payload_along t (prefix_bits q)) by (apply Hb; reflexivity).
        unfold find. rewrite (find_run_landing t q n U Lk N).
        rewrite find_descend_best.
        destruct (list_eq_dec bool_dec (prefix_bits q) []) as [E|E];
          [destruct es as [|e es]|].
        * inversion L; subst t. rewrite E in Lk. inversion Lk; subst n.
          cbn. split; [intros _; right; split; [reflexivity|]|reflexivity].
          apply Bits0, E.
        * destruct (descend_from_table (e :: es) t _ n V L Lk) as (l & v & D);
            [right; discriminate|].
          rewrite D. cbn. split; [discriminate|].
          intros [H|[H _]]; [contradiction|discriminate].
        * destruct (descend_from_table es t _ n V L Lk) as (l & v & D);
            [left; exact E|].
          rewrite D. cbn. split; [discriminate|].
          intros [H|[_ Z0]]; [contradiction|].
          apply Bits0 in Z0. contradiction.
    - unfold find. rewrite find_run_no_landing
        by (try assumption; left; exact Lk).
      split.
      + intros B. left. apply Off. split; [reflexivity|]. apply Hb, B.
      + intros [H|[_ Z0]]; [apply H|].
        apply Bits0 in Z0. rewrite Z0 in Lk. discriminate. }
  split; [exact Main|]. split; [exact Off|]. split; [exact Hm|].
  intros v _ H. apply Main. left. exact H.
Qed.

Lemma find_no_entry_iff_witness :
  Forall valid_entry default_table /\
  load default_table empty_node = Done default_trie /\
  is_unsigned (prefix_length (mk_prefix addr_2001_db9 32)) /\
  payload_at default_trie [] = Some 1 /\
  walk_runs_off default_trie (mk_prefix addr_2001_db9 32) /\
  find default_trie (mk_prefix addr_2001_db9 32) = None.
Proof.
  assert (V : Forall valid_entry default_table)
    by (repeat constructor; unfold valid_entry, is_unsigned; cbn; lia).
  assert (U : is_unsigned (prefix_length (mk_prefix addr_2001_db9 32)))
    by (unfold is_unsigned; cbn; lia).
  assert (W : walk_runs_off default_trie (mk_prefix addr_2001_db9 32))
    by (split; vm_compute; reflexivity).
  split; [exact V|]. split; [exact default_table_loads|].
  split; [exact U|]. split; [reflexivity|]. split; [exact W|].
  destruct (find_no_entry_iff default_table default_trie
              (mk_prefix addr_2001_db9 32) V default_table_loads U)
    as [Main _].
  apply Main. left. exact W.
Defined.

(** C1 as stated fails on the empty table: the query ::/0 gets no entry,
    although the walk along its (zero) bits never leaves the trie: it ends
    on the root, and it is the descent that steps off the childless root. *)
Lemma find_no_entry_counterexample :
  ~ (forall (es : list prefix_and_pop) (t : node) (q : address_prefix),
        Forall (fun e => 0 <= prefix_length (prefix e) <= 128) es ->
        load es empty_node = Done t ->
        0 <= prefix_length q <= 128 ->
        (find t q = None <-> walk_runs_off t q)).
Proof.
  intros H.
  destruct (H [] empty_node (mk_prefix 0 0)) as [H1 _].
  - constructor.
  - reflexivity.
  - cbn; lia.
  - destruct (H1 eq_refl) as [C _]. vm_compute in C. discriminate.
Qed.

(** ** The fallback descent *)

(** C2, as the code has it: when the walk along the query's bits ends on
    an existing node with no payload recorded, and the table is not empty
    or the query has non-zero length, the descent of the specification
    (0-child when there is one, else 1-child, stop at the first payload)
    from that node does stop on a payload, in one way only, and [find]
    returns that payload.  It is the PoP of exactly one table entry, whose
    position is the query's path followed by the bits of the descent, and
    the matched length is that entry's own length: the query's length plus
    the number of bits descended. *)
Theorem find_fallback_descent (es : list prefix_and_pop) (t : node)
    (q : address_prefix) (n : node) :
  Forall valid_entry es ->
  load es empty_node = Done t ->
  is_unsigned (prefix_length q) ->
  st_current (find_walk t q 0 None 0) = Some n ->
  st_best (find_walk t q 0 None 0) = None ->
  es <> [] \/ prefix_length q <> 0 ->
  lookup t (prefix_bits q) = Some n /\
  exists l v,
    leftmost_payload n l v /\
    (forall l' v', leftmost_payload n l' v' -> l' = l /\ v' = v) /\
    find t q = Some (mk_match v (prefix_length q + Z.of_nat (length l))) /\
    exists e,
      In e es /\ position e = prefix_bits q ++ l /\ pop e = v /\
      prefix_length (prefix e) = prefix_length q + Z.of_nat (length l) /\
      forall e', In e' es -> position e' = position e -> e' = e.
Proof.
  intros V L U Hc Hb Hne.
  destruct (find_walk_state t q U) as (Ec & Eb & _).
  rewrite Ec in Hc. apply Eb in Hb.
  destruct (bits_length_unsigned _ U) as [Hlen _].
  split; [exact Hc|].
  destruct (descend_from_table es t (prefix_bits q) n V L Hc) as (l & v & D).
  { destruct Hne as [H|H]; [right; exact H|left].
    intros E. rewrite E in Hlen. cbn in Hlen. lia. }
  pose proof D as Hl. apply descend_bits_leftmost in Hl.
  exists l, v. split; [exact Hl|].
  split; [apply leftmost_payload_unique, Hl|].
  assert (P : payload_at t (prefix_bits q ++ l) = Some v).
  { rewrite (payload_at_app _ _ _ _ Hc). apply leftmost_payload_at, Hl. }
  apply (table_payload es t _ v V L) in P.
  destruct P as (e & He & Pe & Ve).
  assert (Ue : valid_entry e)
    by (eapply Forall_forall; [exact V|exact He]).
  destruct (bits_length_unsigned _ Ue) as [Hle Hwe].
  fold (position e) in Hle, Hwe. rewrite Pe, length_app in Hle, Hwe.
  assert (Le : prefix_length (prefix e) =
               prefix_length q + Z.of_nat (length l)) by lia.
  split.
  - unfold find. rewrite (find_run_landing t q n U Hc Hb).
    rewrite find_descend_best, D. cbn [fst snd].
    rewrite Hwe, Le. reflexivity.
  - exists e. repeat split; try assumption.
    intros e' He' Pe'.
    destruct (load_done_nodup es empty_node t V L) as [ND _].
    eapply nodup_position_unique; eassumption.
Qed.

Lemma find_fallback_descent_witness :
  Forall valid_entry sibling_table /\
  load sibling_table empty_node = Done sibling_trie /\
  is_unsigned (prefix_length (mk_prefix addr_2001_db8 32)) /\
  (sibling_table <> [] \/
   prefix_length (mk_prefix addr_2001_db8 32) <> 0) /\
  exists l v,
    leftmost_payload
      (mk_node None (Some (mk_node (Some 5) None None))
                    (Some (mk_node (Some 6) None None))) l v /\
    find sibling_trie (mk_prefix addr_2001_db8 32)
      = Some (mk_match v (32 + Z.of_nat (length l))).
Proof.
  assert (V : Forall valid_entry sibling_table)
    by (repeat constructor; unfold valid_entry, is_unsigned; cbn; lia).
  assert (U : is_unsigned (prefix_length (mk_prefix addr_2001_db8 32)))
    by (unfold is_unsigned; cbn; lia).
  assert (Hne : sibling_table <> [] \/
                prefix_length (mk_prefix addr_2001_db8 32) <> 0)
    by (left; discriminate).
  split; [exact V|]. split; [exact sibling_table_loads|]. split; [exact U|].
  split; [exact Hne|].
  destruct (find_fallback_descent sibling_table sibling_trie
              (mk_prefix addr_2001_db8 32)
              (mk_node None (Some (mk_node (Some 5) None None))
                            (Some (mk_node (Some 6) None None)))
              V sibling_table_loads U)
    as (_ & l & v & Hl & _ & F & _).
  - vm_compute. reflexivity.
  - vm_compute. reflexivity.
  - exact Hne.
  - exists l, v. split; [exact Hl|exact F].
Defined.

(** C2 as stated fails on the empty table: the query ::/0 lands on the
    root with no payload recorded, but the descent from the bare root
    reaches no payload and [find] returns no entry. *)
Lemma find_fallback_descent_counterexample :
  ~ (forall (es : list prefix_and_pop) (t : node) (q : address_prefix)
            (n : node),
        Forall valid_entry es ->
        load es empty_node = Done t ->
        is_unsigned (prefix_length q) ->
        st_current (find_walk t q 0 None 0) = Some n ->
        st_best (find_walk t q 0 None 0) = None ->
        exists l v,
          leftmost_payload n l v /\
          find t q =
            Some (mk_match v (prefix_length q + Z.of_nat (length l)))).
Proof.
  intros H.
  destruct (H [] empty_node (mk_prefix 0 0) empty_node)
    as (l & v & _ & F).
  - constructor.
  - reflexivity.
  - unfold is_unsigned; cbn; lia.
  - reflexivity.
  - reflexivity.
  - vm_compute in F. discriminate.
Qed.




(** ** Cost of a lookup *)

Lemma entry_length_bound (es : list prefix_and_pop) :
  Forall (fun e => 0 <= prefix_length (prefix e) <= 128) es ->
  Forall valid_entry es /\
  forall e, In e es -> (length (position e) <= 128)%nat.
Proof.
  intros B. split.
  - eapply Forall_impl; [|exact B]. cbn. intros e H.
    unfold valid_entry, is_unsigned. lia.
  - intros e He. unfold position. rewrite prefix_bits_length.
    rewrite Forall_forall in B. specialize (B e He). lia.
Qed.

(** C8: on a table whose entries have lengths up to 128, and for a query
    of length up to 128 with any address, [find] (a total function, so it
    always returns) gives a match or no entry; its first loop moves
    [current] at most [length q] times, its second loop at most 128 times,
    and the whole call at most [length q + 128] times. *)
Theorem find_transition_bound (es : list prefix_and_pop) (t : node)
    (q : address_prefix) :
  Forall (fun e => 0 <= prefix_length (prefix e) <= 128) es ->
  load es empty_node = Done t ->
  0 <= prefix_length q <= 128 ->
  (find t q = None \/ exists m, find t q = Some m) /\
  (transitions (find_walk t q 0 None 0) <= Z.to_nat (prefix_length q))%nat /\
  (transitions (find_run t q) <=
     transitions (find_walk t q 0 None 0) + 128)%nat /\
  (transitions (find_run t q) <= Z.to_nat (prefix_length q) + 128)%nat.
Proof.
  intros B L Hq.
  destruct (entry_length_bound es B) as [V Hlen].
  assert (U : is_unsigned (prefix_length q)) by (unfold is_unsigned; lia).
  destruct (find_walk_state t q U) as (Ec & Eb & Ht & Hd & _).
  rewrite prefix_bits_length in Ht.
  assert (Second : (transitions (find_run t q) <=
                    transitions (find_walk t q 0 None 0) + 128)%nat).
  { destruct (lookup t (prefix_bits q)) as [n|] eqn:Lk.
    - destruct (st_best (find_walk t q 0 None 0)) as [m|] eqn:Bm.
      + rewrite find_run_no_landing
          by (try assumption; right; intros H; apply Eb in H; discriminate).
        lia.
      + destruct Hd as [_ ->]; [discriminate|].
        rewrite (find_run_landing t q n U Lk) by (apply Eb; reflexivity).
        rewrite find_descend_bits.
        destruct (descend_bits n) as [l [v|]] eqn:D;
          cbn [transitions].
        * apply descend_bits_leftmost, leftmost_payload_at in D.
          rewrite <- (payload_at_app t (prefix_bits q) l n Lk) in D.
          apply (table_payload es t _ v V L) in D.
          destruct D as (e & He & Pe & _).
          specialize (Hlen e He). rewrite Pe, length_app in Hlen. lia.
        * destruct (list_eq_dec bool_dec (prefix_bits q) []) as [E|E];
            [destruct es as [|e es]|].
          -- inversion L; subst t. rewrite E in Lk. inversion Lk; subst n.
             cbn in D. inversion D; subst l. cbn. lia.
          -- destruct (descend_from_table (e :: es) t _ n V L Lk)
               as (l' & v' & D'); [right; discriminate|congruence].
          -- destruct (descend_from_table es t _ n V L Lk)
               as (l' & v' & D'); [left; exact E|congruence].
    - rewrite find_run_no_landing by (try assumption; left; exact Lk).
      lia. }
  split; [destruct (find t q) as [m|]; eauto|].
  split; [exact Ht|]. split; [exact Second|lia].
Qed.

Lemma find_transition_bound_witness :
  Forall (fun e => 0 <= prefix_length (prefix e) <= 128) sibling_table /\
  load sibling_table empty_node = Done sibling_trie /\
  0 <= prefix_length (mk_prefix addr_2001_db8 32) <= 128 /\
  (transitions (find_run sibling_trie (mk_prefix addr_2001_db8 32))
     <= 32 + 128)%nat.
Proof.
  assert (B : Forall (fun e => 0 <= prefix_length (prefix e) <= 128)
                     sibling_table)
    by (repeat constructor; cbn; lia).
  assert (Hq : 0 <= prefix_length (mk_prefix addr_2001_db8 32) <= 128)
    by (cbn; lia).
  split; [exact B|]. split; [exact sibling_table_loads|]. split; [exact Hq|].
  exact (proj2 (proj2 (proj2
    (find_transition_bound sibling_table sibling_trie
       (mk_prefix addr_2001_db8 32) B sibling_table_loads Hq)))).
Defined.

(** * Further properties of the code *)

(** ** The cursor as a sequence of bits *)

Lemma pop_all_bits (fuel : nat) : forall p,
  is_unsigned (prefix_length p) ->
  (Z.to_nat (prefix_length p) < fuel)%nat ->
  pop_all fuel p = prefix_bits p.
Proof.
  unfold is_unsigned.
  induction fuel as [|fuel IH]; intros [a len] U F; cbn [prefix_length] in *;
    [lia|].
  cbn [pop_all].
  destruct (Z.eq_dec len 0) as [->|Hne].
  - rewrite pop_bit_zero by reflexivity. rewrite prefix_bits_zero by lia.
    reflexivity.
  - rewrite pop_bit_pos by (cbn [prefix_length]; lia).
    cbn [address prefix_length]. rewrite prefix_bits_pos by lia.
    rewrite IH by (cbn [prefix_length]; lia). reflexivity.
Qed.

(** X1: popping a cursor until it reports none yields exactly
    [prefix_length] bits, and the [i]-th of them is bit [127 - i] of the
    address, most significant first; from the 128th on (a length above 128
    is not refused) every bit is 0. *)
Theorem cursor_yields_leading_bits (p : address_prefix) (fuel : nat) :
  is_unsigned (prefix_length p) ->
  (Z.to_nat (prefix_length p) < fuel)%nat ->
  length (pop_all fuel p) = Z.to_nat (prefix_length p) /\
  (forall i, (i < Z.to_nat (prefix_length p))%nat ->
     nth i (pop_all fuel p) false =
       Z.testbit (address p) (127 - Z.of_nat i)) /\
  (forall i, (128 <= i)%nat -> nth i (pop_all fuel p) false = false).
Proof.
  intros U F. rewrite (pop_all_bits fuel p U F).
  split; [apply prefix_bits_length|]. split.
  - intros i Hi. apply prefix_bits_nth. exact Hi.
  - intros i Hi.
    destruct (Nat.lt_ge_cases i (Z.to_nat (prefix_length p))) as [Hlt|Hge].
    + rewrite prefix_bits_nth by exact Hlt. apply Z.testbit_neg_r. lia.
    + apply nth_overflow. rewrite prefix_bits_length. exact Hge.
Qed.

Lemma cursor_yields_leading_bits_witness :
  is_unsigned (prefix_length (mk_prefix addr_2001_db8 3)) /\
  (Z.to_nat (prefix_length (mk_prefix addr_2001_db8 3)) < 4)%nat /\
  length (pop_all 4 (mk_prefix addr_2001_db8 3)) = 3%nat.
Proof.
  assert (U : is_unsigned (prefix_length (mk_prefix addr_2001_db8 3)))
    by (unfold is_unsigned; cbn; lia).
  assert (F : (Z.to_nat (prefix_length (mk_prefix addr_2001_db8 3)) < 4)%nat)
    by (cbn; lia).
  split; [exact U|]. split; [exact F|].
  exact (proj1 (cursor_yields_leading_bits _ 4 U F)).
Defined.

(** ** Bits past the length are ignored *)

Lemma prefix_bits_eq_iff (P Q : address_prefix) :
  is_unsigned (prefix_length P) -> is_unsigned (prefix_length Q) ->
  (prefix_bits P = prefix_bits Q <->
   prefix_length P = prefix_length Q /\
   forall i, 0 <= i < prefix_length P ->
     Z.testbit (address P) (127 - i) = Z.testbit (address Q) (127 - i)).
Proof.
  intros UP UQ.
  destruct (bits_length_unsigned _ UP) as [LP _].
  destruct (bits_length_unsigned _ UQ) as [LQ _].
  split.
  - intros E. split; [rewrite <- LP, <- LQ, E; reflexivity|].
    apply (is_prefix_of_bits P Q UP UQ). exists []. rewrite app_nil_r.
    symmetry. exact E.
  - intros [El Hb].
    assert (Pre : is_prefix_of P Q)
      by (apply (is_prefix_of_bits P Q UP UQ); split; [lia|exact Hb]).
    destruct Pre as [rest E].
    assert (rest = []).
    { apply (f_equal (@length bool)) in E. rewrite length_app in E.
      destruct rest; [reflexivity|]. cbn [length] in E. lia. }
    subst rest. rewrite app_nil_r in E. symmetry. exact E.
Qed.

Lemma find_run_same_bits (t : node) (P Q : address_prefix) :
  is_unsigned (prefix_length P) -> is_unsigned (prefix_length Q) ->
  prefix_bits P = prefix_bits Q ->
  find_run t P = find_run t Q.
Proof.
  intros UP UQ E.
  pose proof (find_walk_bits _ P t O None O UP eq_refl) as WP.
  pose proof (find_walk_bits _ Q t O None O UQ eq_refl) as WQ.
  change (wrap32 (Z.of_nat 0)) with 0 in WP, WQ. cbn [lift_best] in WP, WQ.
  unfold find_run. rewrite WP, WQ, E. reflexivity.
Qed.

(** X2: only the leading [prefix_length] bits of an address matter.  Two
    prefixes of the same length whose addresses agree on those bits get
    the same answer from [find] on every trie, and inserting either (with
    the same PoP) has the same outcome on every trie. *)
Theorem low_bits_ignored (P Q : address_prefix) :
  is_unsigned (prefix_length P) ->
  prefix_length Q = prefix_length P ->
  (forall i, 0 <= i < prefix_length P ->
     Z.testbit (address P) (127 - i) = Z.testbit (address Q) (127 - i)) ->
  (forall t, find t P = find t Q /\
             transitions (find_run t P) = transitions (find_run t Q)) /\
  (forall v root, insert (mk_entry P v) root = insert (mk_entry Q v) root).
Proof.
  intros UP El Hb.
  assert (UQ : is_unsigned (prefix_length Q)) by (rewrite El; exact UP).
  assert (E : prefix_bits P = prefix_bits Q)
    by (apply prefix_bits_eq_iff; auto).
  split.
  - intros t. unfold find.
    rewrite (find_run_same_bits t P Q UP UQ E). split; reflexivity.
  - intros v root. rewrite !insert_bits_of by assumption.
    cbn [prefix pop]. rewrite E. reflexivity.
Qed.

Lemma low_bits_ignored_witness :
  is_unsigned (prefix_length (mk_prefix addr_2001_db8 32)) /\
  find default_trie (mk_prefix addr_2001_db8 32) =
  find default_trie (mk_prefix (addr_2001_db8 + 1) 32).
Proof.
  assert (U : is_unsigned (prefix_length (mk_prefix addr_2001_db8 32)))
    by (unfold is_unsigned; cbn; lia).
  split; [exact U|].
  refine (proj1 (proj1 (low_bits_ignored (mk_prefix addr_2001_db8 32)
                          (mk_prefix (addr_2001_db8 + 1) 32) U eq_refl _)
                   default_trie)).
  cbn [address prefix_length]. intros i Hi.
  assert (C : forallb (fun k =>
                Bool.eqb (Z.testbit addr_2001_db8 (127 - Z.of_nat k))
                         (Z.testbit (addr_2001_db8 + 1) (127 - Z.of_nat k)))
              (seq 0 32) = true) by (vm_compute; reflexivity).
  rewrite forallb_forall in C.
  specialize (C (Z.to_nat i)). rewrite Z2Nat.id in C by lia.
  apply Bool.eqb_prop, C, in_seq. lia.
Defined.

(** ** Duplicate detection *)

Lemma load_outcome_cases es root :
  Forall valid_entry es ->
  (exists t, load es root = Done t) \/ load es root = Abort.
Proof.
  intros V. pose proof (load_terminates es root V) as T.
  destruct (load es root); [left; eauto|right; reflexivity|contradiction].
Qed.

(** X3: loading a table into the empty trie aborts exactly when two of its
    entries occupy the same trie position, that is, have equal lengths and
    addresses that agree on that many leading bits (whatever their other
    bits and their PoPs); otherwise it succeeds.  The outcome, abort
    included, is the same for every order of the entries and from every
    starting trie. *)
Theorem load_aborts_iff_duplicate (es : list prefix_and_pop) :
  Forall valid_entry es ->
  (load es empty_node = Abort <-> ~ NoDup (map position es)) /\
  ((exists t, load es empty_node = Done t) <-> NoDup (map position es)) /\
  (forall e1 e2, In e1 es -> In e2 es ->
     (position e1 = position e2 <->
      prefix_length (prefix e1) = prefix_length (prefix e2) /\
      forall i, 0 <= i < prefix_length (prefix e1) ->
        Z.testbit (address (prefix e1)) (127 - i) =
        Z.testbit (address (prefix e2)) (127 - i))) /\
  (forall es' root, Permutation es es' -> load es root = load es' root).
Proof.
  intros V.
  assert (D : (exists t, load es empty_node = Done t) <->
              NoDup (map position es)).
  { split.
    - intros [t L]. apply (load_done_nodup es empty_node t V L).
    - intros ND. apply load_nodup_done; [exact V|exact ND|].
      intros e _. apply payload_at_empty_node. }
  split; [|split; [exact D|split]].
  - split.
    + intros A ND. apply D in ND. destruct ND as [t L]. congruence.
    + intros ND.
      destruct (load_outcome_cases es empty_node V) as [L|A]; [|exact A].
      apply D in L. contradiction.
  - intros e1 e2 H1 H2. rewrite Forall_forall in V.
    apply prefix_bits_eq_iff; apply V; assumption.
  - intros es' root HP. apply load_permutation; assumption.
Qed.

Lemma load_aborts_iff_duplicate_witness :
  Forall valid_entry
    [mk_entry (mk_prefix addr_2001_db8 32) 2;
     mk_entry (mk_prefix (addr_2001_db8 + 1) 32) 3] /\
  load [mk_entry (mk_prefix addr_2001_db8 32) 2;
        mk_entry (mk_prefix (addr_2001_db8 + 1) 32) 3] empty_node = Abort.
Proof.
  assert (V : Forall valid_entry
                [mk_entry (mk_prefix addr_2001_db8 32) 2;
                 mk_entry (mk_prefix (addr_2001_db8 + 1) 32) 3])
    by (repeat constructor; unfold valid_entry, is_unsigned; cbn; lia).
  split; [exact V|].
  apply (proj1 (load_aborts_iff_duplicate _ V)).
  intros ND. inversion ND as [|? ? Fresh _]; subst. apply Fresh.
  left. vm_compute. reflexivity.
Defined.

(** ** The shape of a loaded trie *)

Lemma insert_bits_path bs : forall v n n' l r,
  insert_bits bs v n = Some n' -> bs = l ++ r -> lookup n' l <> None.
Proof.
  induction bs as [|b bs IH]; intros v n n' l r I E.
  - destruct l; [discriminate|discriminate].
  - destruct l as [|x l]; [discriminate|].
    cbn in E. injection E as <- E. cbn in I.
    destruct (insert_bits bs v _) as [c'|] eqn:Ec; [|discriminate].
    inversion I; subst n'. cbn. rewrite children_set_child_same.
    eapply IH; eassumption.
Qed.

Lemma load_keeps_nodes es : forall root t bs,
  Forall valid_entry es -> load es root = Done t ->
  lookup root bs <> None -> lookup t bs <> None.
Proof.
  induction es as [|e es IH]; intros root t bs V L H.
  - inversion L; subst. exact H.
  - inversion V as [|? ? Ve Ves]; subst.
    destruct (load_cons_done _ _ _ _ Ve L) as (root' & I & L').
    eapply IH; [exact Ves|exact L'|].
    eapply insert_bits_keeps_nodes; eassumption.
Qed.

Lemma load_path es : forall root t e l r,
  Forall valid_entry es -> load es root = Done t ->
  In e es -> position e = l ++ r -> lookup t l <> None.
Proof.
  induction es as [|x es IH]; intros root t e l r V L Hin E;
    [contradiction|].
  inversion V as [|? ? Vx Ves]; subst.
  destruct (load_cons_done _ _ _ _ Vx L) as (root' & I & L').
  destruct Hin as [->|Hin].
  - eapply load_keeps_nodes; [exact Ves|exact L'|].
    eapply insert_bits_path; eassumption.
  - eapply IH; eassumption.
Qed.

Lemma table_nodes (es : list prefix_and_pop) (t : node) :
  Forall valid_entry es ->
  load es empty_node = Done t ->
  forall bs, lookup t bs <> None <->
    bs = [] \/ exists e rest, In e es /\ position e = bs ++ rest.
Proof.
  intros V L bs. split.
  - intros H. destruct (lookup t bs) as [m|] eqn:Lk; [|contradiction].
    destruct (load_lookup es empty_node t bs m V L Lk)
      as [Hr|(e & rest & He & Pe)]; [|right; eauto].
    left. destruct bs; [reflexivity|].
    rewrite lookup_empty_node in Hr by discriminate. contradiction.
  - intros [->|(e & rest & He & Pe)]; [discriminate|].
    eapply load_path; eassumption.
Qed.

(** X4: the trie built by a successful load is determined by the table:
    it has a node at a bit path exactly when the path is empty (the root)
    or leads towards the position of some entry, and the node at a path
    holds the payload [v] exactly when some entry has that position and
    PoP [v]; no node lies deeper than the longest entry. *)
Theorem loaded_trie_shape (es : list prefix_and_pop) (t : node) :
  Forall valid_entry es ->
  load es empty_node = Done t ->
  (forall bs, lookup t bs <> None <->
     bs = [] \/ exists e rest, In e es /\ position e = bs ++ rest) /\
  (forall bs v, payload_at t bs = Some v <->
     exists e, In e es /\ position e = bs /\ pop e = v) /\
  (forall bs, lookup t bs <> None -> bs <> [] ->
     exists e, In e es /\ Z.of_nat (length bs) <= prefix_length (prefix e)).
Proof.
  intros V L. pose proof (table_nodes es t V L) as N.
  split; [exact N|]. split; [intros bs v; apply table_payload; assumption|].
  intros bs H Hne. apply N in H.
  destruct H as [->|(e & rest & He & Pe)]; [contradiction|].
  exists e. split; [exact He|].
  rewrite Forall_forall in V.
  destruct (bits_length_unsigned _ (V e He)) as [Hl _].
  fold (position e) in Hl. rewrite Pe, length_app in Hl. lia.
Qed.

Lemma loaded_trie_shape_witness :
  Forall valid_entry sibling_table /\
  load sibling_table empty_node = Done sibling_trie /\
  lookup sibling_trie (prefix_bits (mk_prefix addr_2001_db8 20)) <> None.
Proof.
  assert (V : Forall valid_entry sibling_table)
    by (repeat constructor; unfold valid_entry, is_unsigned; cbn; lia).
  split; [exact V|]. split; [exact sibling_table_loads|].
  apply (proj1 (loaded_trie_shape sibling_table sibling_trie V
                  sibling_table_loads)).
  right. exists (mk_entry (mk_prefix addr_2001_db8 33) 5).
  exists (skipn 20 (prefix_bits (mk_prefix addr_2001_db8 33))).
  split; [left; reflexivity|].
  vm_compute. reflexivity.
Defined.

(** ** Insert, then find *)

Lemma find_at_payload (t : node) (q : address_prefix) (v : Z) :
  is_unsigned (prefix_length q) ->
  payload_at t (prefix_bits q) = Some v ->
  find t q = Some (mk_match v (prefix_length q)).
Proof.
  intros U P.
  destruct (bits_length_unsigned _ U) as [Hl Hw].
  destruct (lookup t (prefix_bits q)) as [m|] eqn:Lk;
    [|apply payload_at_lookup in P; contradiction].
  destruct (list_eq_dec bool_dec (prefix_bits q) []) as [E|E].
  - assert (N : no_payload_along t (prefix_bits q)).
    { intros l1 l2 E' Hne. rewrite E in E'.
      destruct l1; [contradiction|discriminate]. }
    unfold find. rewrite (find_run_landing t q m U Lk N).
    rewrite E in *. inversion Lk; subst m. rewrite payload_at_nil in P.
    destruct t as [p c0 c1]. cbn in P. subst p. cbn in Hl.
    rewrite <- Hl. reflexivity.
  - assert (N : ~ no_payload_along t (prefix_bits q)).
    { intros N. rewrite (N (prefix_bits q) []) in P;
        [discriminate|symmetry; apply app_nil_r|exact E]. }
    unfold find. rewrite find_run_no_landing by (try assumption; right; exact N).
    destruct (find_walk_summary t q U) as (d' & b & W & _ & _ & Hb).
    rewrite W. cbn [st_best].
    destruct Hb as [[_ Hn]|(l1 & w & ((l2 & E2) & Hne & Hp & Hmax) & ->)];
      [contradiction|].
    destruct (Nat.lt_ge_cases (length l1) (length (prefix_bits q)))
      as [Hlt|Hge].
    + rewrite (Hmax (prefix_bits q) []) in P;
        [discriminate|symmetry; apply app_nil_r|exact Hlt].
    + assert (l2 = []).
      { apply (f_equal (@length bool)) in E2. rewrite length_app in E2.
        destruct l2; [reflexivity|]. cbn [length] in E2. lia. }
      subst l2. rewrite app_nil_r in E2. subst l1. cbn [lift_best].
      rewrite Hw. congruence.
Qed.

(** X5: on any trie, a successful [insert] is seen by the next [find]:
    the inserted prefix is answered with the inserted PoP and its own
    length, and every prefix that was answered by the payload at its own
    position before is still answered by it. *)
Theorem insert_then_find (e : prefix_and_pop) (root root' : node) :
  valid_entry e ->
  insert e root = Done root' ->
  find root' (prefix e) = Some (mk_match (pop e) (prefix_length (prefix e))) /\
  (forall q v, is_unsigned (prefix_length q) ->
     payload_at root (prefix_bits q) = Some v ->
     find root q = Some (mk_match v (prefix_length q)) /\
     find root' q = Some (mk_match v (prefix_length q))).
Proof.
  intros V I. rewrite insert_bits_of in I by exact V.
  destruct (insert_bits (prefix_bits (prefix e)) (pop e) root) as [r|] eqn:Ib;
    [|discriminate].
  inversion I; subst r. split.
  - apply find_at_payload; [exact V|].
    eapply insert_bits_payload_same. exact Ib.
  - intros q v U P. split; [apply find_at_payload; assumption|].
    apply find_at_payload; [exact U|].
    rewrite (insert_bits_payload_other _ _ _ _ (prefix_bits q) Ib);
      [exact P|].
    intros E. rewrite E in P.
    assert (F : insert_bits (prefix_bits (prefix e)) (pop e) root = None)
      by (apply insert_bits_fails; congruence).
    congruence.
Qed.

Lemma insert_then_find_witness :
  valid_entry (mk_entry (mk_prefix addr_2001_db9 32) 4) /\
  (exists root',
     insert (mk_entry (mk_prefix addr_2001_db9 32) 4) default_trie
       = Done root' /\
     find root' (mk_prefix addr_2001_db9 32) = Some (mk_match 4 32)).
Proof.
  assert (V : valid_entry (mk_entry (mk_prefix addr_2001_db9 32) 4))
    by (unfold valid_entry, is_unsigned; cbn; lia).
  split; [exact V|].
  destruct (insert (mk_entry (mk_prefix addr_2001_db9 32) 4) default_trie)
    as [root'| |] eqn:I; [|vm_compute in I; discriminate..].
  exists root'. split; [reflexivity|].
  exact (proj1 (insert_then_find _ default_trie root' V I)).
Defined.

(** ** What [find] answers, in terms of the table *)

Lemma table_no_payload_along es t q :
  Forall valid_entry es -> load es empty_node = Done t ->
  (no_payload_along t (prefix_bits q) <->
   forall e, In e es -> is_prefix_of (prefix e) q ->
             prefix_length (prefix e) = 0).
Proof.
  intros V L. pose proof V as V'. rewrite Forall_forall in V'. split.
  - intros N e He [rest E]. fold (position e) in E.
    destruct (bits_length_unsigned _ (V' e He)) as [Hl _].
    fold (position e) in Hl.
    destruct (position e) as [|b l] eqn:Pe; [cbn in Hl; lia|].
    assert (P : payload_at t (b :: l) = Some (pop e))
      by (apply (table_payload es t _ _ V L); eauto).
    rewrite (N _ _ E) in P; [discriminate|discriminate].
  - intros H l1 l2 E Hne.
    destruct (payload_at t l1) as [v|] eqn:P; [|reflexivity].
    apply (table_payload es t _ _ V L) in P.
    destruct P as (e & He & Pe & _).
    assert (Z0 : prefix_length (prefix e) = 0).
    { apply (H e He). exists l2. fold (position e). rewrite Pe. exact E. }
    destruct (bits_length_unsigned _ (V' e He)) as [Hl _].
    fold (position e) in Hl. rewrite Pe in Hl.
    destruct l1; [contradiction|cbn in Hl; lia].
Qed.

(** X6: every answer of [find] is a table entry.  The PoP and the matched
    length are those of one entry of the table; either that entry has
    non-zero length and covers the query, or no entry of non-zero length
    covers the query and the entry extends the query (the query's bits are
    its leading bits).  So a /0 entry is returned to the query of length 0
    only. *)
Theorem find_sound (es : list prefix_and_pop) (t : node)
    (q : address_prefix) (m : pop_and_prefix_length) :
  Forall valid_entry es ->
  load es empty_node = Done t ->
  is_unsigned (prefix_length q) ->
  find t q = Some m ->
  (exists e,
     In e es /\ pop e = matched_pop m /\
     prefix_length (prefix e) = matched_length m /\
     ((1 <= prefix_length (prefix e) /\ is_prefix_of (prefix e) q) \/
      (is_prefix_of q (prefix e) /\
       forall e', In e' es -> is_prefix_of (prefix e') q ->
                  prefix_length (prefix e') = 0))) /\
  (matched_length m = 0 -> prefix_length q = 0).
Proof.
  intros V L U F.
  pose proof V as V'. rewrite Forall_forall in V'.
  destruct (bits_length_unsigned _ U) as [Hlq _].
  assert (Main : exists e,
     In e es /\ pop e = matched_pop m /\
     prefix_length (prefix e) = matched_length m /\
     ((1 <= prefix_length (prefix e) /\ is_prefix_of (prefix e) q) \/
      (is_prefix_of q (prefix e) /\
       forall e', In e' es -> is_prefix_of (prefix e') q ->
                  prefix_length (prefix e') = 0))).
  { destruct (find_walk_summary t q U) as (d' & b & W & _ & _ & Hb).
    destruct Hb as [[-> N]|(l1 & v & ((l2 & E2) & Hne & Hp & _) & ->)].
    - destruct (lookup t (prefix_bits q)) as [n|] eqn:Lk.
      + unfold find in F. rewrite (find_run_landing t q n U Lk N) in F.
        rewrite find_descend_best in F.
        destruct (descend_bits n) as [l [v|]] eqn:D; [|discriminate].
        cbn [fst snd] in F. inversion F; subst m. cbn.
        apply descend_bits_leftmost, leftmost_payload_at in D.
        rewrite <- (payload_at_app t (prefix_bits q) l n Lk) in D.
        apply (table_payload es t _ v V L) in D.
        destruct D as (e & He & Pe & Ve).
        destruct (bits_length_unsigned _ (V' e He)) as [_ Hw].
        fold (position e) in Hw. rewrite Pe, length_app in Hw.
        exists e. repeat split; try assumption; [symmetry; exact Hw|].
        right. split; [exists l; exact Pe|].
        apply (table_no_payload_along es t q V L). exact N.
      + unfold find in F.
        rewrite find_run_no_landing in F by (try assumption; left; exact Lk).
        rewrite W in F. discriminate.
    - unfold find, find_run in F. rewrite W in F.
      cbn [st_current st_best lift_best] in F.
      assert (F' : Some (mk_match v (wrap32 (Z.of_nat (length l1)))) = Some m)
        by (destruct (lookup t (prefix_bits q)); exact F).
      inversion F'; subst m. cbn.
      apply (table_payload es t _ v V L) in Hp.
      destruct Hp as (e & He & Pe & Ve).
      destruct (bits_length_unsigned _ (V' e He)) as [Hl Hw].
      fold (position e) in Hl, Hw. rewrite Pe in Hl, Hw.
      exists e. repeat split; try assumption; [symmetry; exact Hw|].
      left. split; [destruct l1; [contradiction|cbn in Hl; lia]|].
      exists l2. fold (position e). rewrite Pe. exact E2. }
  split; [exact Main|].
  destruct Main as (e & He & _ & Hl & [[H1 _]|[Hq _]]); intros Z0; [lia|].
  pose proof (is_prefix_of_length q (prefix e) U (V' e He) Hq).
  unfold is_unsigned in U. lia.
Qed.

Lemma find_sound_witness :
  Forall valid_entry sibling_table /\
  load sibling_table empty_node = Done sibling_trie /\
  is_unsigned (prefix_length (mk_prefix addr_2001_db8 32)) /\
  find sibling_trie (mk_prefix addr_2001_db8 32) = Some (mk_match 5 33) /\
  exists e, In e sibling_table /\ pop e = 5 /\ prefix_length (prefix e) = 33.
Proof.
  assert (V : Forall valid_entry sibling_table)
    by (repeat constructor; unfold valid_entry, is_unsigned; cbn; lia).
  assert (U : is_unsigned (prefix_length (mk_prefix addr_2001_db8 32)))
    by (unfold is_unsigned; cbn; lia).
  split; [exact V|]. split; [exact sibling_table_loads|].
  split; [exact U|]. split; [exact find_sibling_parent|].
  destruct (proj1 (find_sound sibling_table sibling_trie _ _ V
                     sibling_table_loads U find_sibling_parent))
    as (e & He & Pe & Le & _).
  exists e. auto.
Defined.

(** X7: longest-prefix match.  If some table entry of non-zero length
    covers the query, [find] returns the longest table entry covering the
    query, with that entry's length; an entry of zero length takes no part
    in this. *)
Theorem find_longest_cover (es : list prefix_and_pop) (t : node)
    (e : prefix_and_pop) (q : address_prefix) :
  Forall valid_entry es ->
  load es empty_node = Done t ->
  is_unsigned (prefix_length q) ->
  In e es ->
  1 <= prefix_length (prefix e) ->
  is_prefix_of (prefix e) q ->
  (forall e', In e' es -> is_prefix_of (prefix e') q ->
              prefix_length (prefix e') <= prefix_length (prefix e)) ->
  find t q = Some (mk_match (pop e) (prefix_length (prefix e))).
Proof.
  intros V L U He H1 [rest E] Max. fold (position e) in E.
  pose proof V as V'. rewrite Forall_forall in V'.
  assert (Pay : forall x, In x es -> payload_at t (position x) = Some (pop x))
    by (intros x Hx; apply (table_payload es); eauto).
  destruct (bits_length_unsigned _ (V' e He)) as [Hl Hw].
  fold (position e) in Hl, Hw.
  assert (Ne : position e <> [])
    by (intros Z0; rewrite Z0 in Hl; cbn in Hl; lia).
  destruct (find_walk_summary t q U) as (d' & b & W & _ & _ & Hb).
  destruct Hb as [[_ N]|(l1 & v & ((l2 & E2) & Hne & Hp & Hmax) & ->)].
  { pose proof (Pay e He) as P. rewrite (N _ _ E Ne) in P. discriminate. }
  assert (F : find t q = Some (mk_match v (wrap32 (Z.of_nat (length l1))))).
  { unfold find, find_run. rewrite W. cbn [st_current st_best lift_best].
    destruct (lookup t (prefix_bits q)); reflexivity. }
  pose proof Hp as Hp'. apply (table_payload es t _ v V L) in Hp'.
  destruct Hp' as (x & Hx & Px & Vx).
  destruct (bits_length_unsigned _ (V' x Hx)) as [Hlx Hwx].
  fold (position x) in Hlx, Hwx. rewrite Px in Hlx, Hwx.
  assert (Le : prefix_length (prefix x) <= prefix_length (prefix e)).
  { apply Max; [exact Hx|]. exists l2. fold (position x).
    rewrite Px. exact E2. }
  assert (Ge : ~ (length l1 < length (position e))%nat).
  { intros Hlt. pose proof (Pay e He) as P.
    rewrite (Hmax _ _ E Hlt) in P. discriminate. }
  assert (Same : l1 = position e).
  { rewrite E2 in E. apply same_length_prefix in E; [tauto|]. lia. }
  rewrite Same in Hp, F. rewrite (Pay e He) in Hp. injection Hp as Hv.
  rewrite F, Hw, Hv. reflexivity.
Qed.

Lemma find_longest_cover_witness :
  Forall valid_entry default_table /\
  load default_table empty_node = Done default_trie /\
  is_unsigned (prefix_length (mk_prefix (addr_2001_db8 + 1) 128)) /\
  find default_trie (mk_prefix (addr_2001_db8 + 1) 128)
    = Some (mk_match 2 32).
Proof.
  assert (V : Forall valid_entry default_table)
    by (repeat constructor; unfold valid_entry, is_unsigned; cbn; lia).
  assert (U : is_unsigned (prefix_length (mk_prefix (addr_2001_db8 + 1) 128)))
    by (unfold is_unsigned; cbn; lia).
  split; [exact V|]. split; [exact default_table_loads|]. split; [exact U|].
  refine (find_longest_cover default_table default_trie
            (mk_entry (mk_prefix addr_2001_db8 32) 2)
            (mk_prefix (addr_2001_db8 + 1) 128)
            V default_table_loads U _ _ _ _).
  - cbn; tauto.
  - cbn; lia.
  - exists (skipn 32 (prefix_bits (mk_prefix (addr_2001_db8 + 1) 128))).
    vm_compute. reflexivity.
  - intros e' [<-|[<-|[]]] _; cbn; lia.
Defined.

Lemma find_none_cases (es : list prefix_and_pop) (t : node)
    (q : address_prefix) :
  Forall valid_entry es ->
  load es empty_node = Done t ->
  is_unsigned (prefix_length q) ->
  (find t q = None <->
   (lookup t (prefix_bits q) = None /\ no_payload_along t (prefix_bits q)) \/
   (es = [] /\ prefix_bits q = [])).
Proof.
  intros V L U.
  destruct (find_walk_state t q U) as (Hc & Hb & _).
  destruct (lookup t (prefix_bits q)) as [n|] eqn:Lk.
  - destruct (st_best (find_walk t q 0 None 0)) as [m|] eqn:B.
    + unfold find. rewrite find_run_no_landing
        by (try assumption; right; intros H; apply Hb in H; discriminate).
      rewrite B. split; [discriminate|].
      intros [[H _]|[_ E]]; [discriminate|]. exfalso.
      assert (N : no_payload_along t (prefix_bits q)).
      { intros l1 l2 E' Hne. rewrite E in E'.
        destruct l1; [contradiction|discriminate]. }
      apply Hb in N. discriminate.
    + assert (N : no_payload_along t (prefix_bits q))
        by (apply Hb; reflexivity).
      unfold find. rewrite (find_run_landing t q n U Lk N).
      rewrite find_descend_best.
      destruct (list_eq_dec bool_dec (prefix_bits q) []) as [E|E];
        [destruct es as [|e es]|].
      * inversion L; subst t. rewrite E in Lk. inversion Lk; subst n.
        cbn. split; [intros _; right; split; [reflexivity|exact E]|].
        reflexivity.
      * destruct (descend_from_table (e :: es) t _ n V L Lk) as (l & v & D);
          [right; discriminate|].
        rewrite D. cbn. split; [discriminate|].
        intros [[H _]|[H _]]; discriminate.
      * destruct (descend_from_table es t _ n V L Lk) as (l & v & D);
          [left; exact E|].
        rewrite D. cbn. split; [discriminate|].
        intros [[H _]|[_ H]]; [discriminate|contradiction].
  - unfold find. rewrite find_run_no_landing
      by (try assumption; left; exact Lk).
    split.
    + intros B. left. split; [reflexivity|]. apply Hb, B.
    + intros [[_ H]|[_ E]]; [apply Hb, H|].
      rewrite E in Lk. discriminate.
Qed.

Lemma find_none_table (es : list prefix_and_pop) (t : node)
    (q : address_prefix) :
  Forall valid_entry es ->
  load es empty_node = Done t ->
  is_unsigned (prefix_length q) ->
  (find t q = None <->
   (forall e, In e es -> ~ is_prefix_of q (prefix e)) /\
   (forall e, In e es -> is_prefix_of (prefix e) q ->
              prefix_length (prefix e) = 0)).
Proof.
  intros V L U.
  pose proof (find_none_cases es t q V L U) as C.
  pose proof (table_no_payload_along es t q V L) as NP.
  pose proof (table_nodes es t V L) as N.
  assert (Ext : lookup t (prefix_bits q) = None <->
                prefix_bits q <> [] /\
                forall e, In e es -> ~ is_prefix_of q (prefix e)).
  { split.
    - intros Lk. split; [intros E; rewrite E in Lk; discriminate|].
      intros e He [rest E]. fold (position e) in E.
      assert (X : lookup t (prefix_bits q) <> None)
        by (apply N; right; eauto).
      contradiction.
    - intros [Hne H].
      destruct (lookup t (prefix_bits q)) as [n|] eqn:Lk; [|reflexivity].
      exfalso.
      assert (X : lookup t (prefix_bits q) <> None) by congruence.
      apply N in X. destruct X as [X|(e & rest & He & Pe)];
        [contradiction|].
      apply (H e He). exists rest. exact Pe. }
  rewrite C, Ext, NP. split.
  - intros [[[_ H1] H2]|[-> _]]; [split; assumption|].
    split; intros e [].
  - intros [H1 H2].
    destruct (list_eq_dec bool_dec (prefix_bits q) []) as [E|E];
      [|left; auto].
    right. split; [|exact E].
    destruct es as [|e es]; [reflexivity|]. exfalso.
    apply (H1 e (or_introl eq_refl)).
    exists (prefix_bits (prefix e)). rewrite E. reflexivity.
Qed.

(** X8: [find] returns no entry exactly when no table entry extends the
    query and every table entry covering the query has length 0.  In
    particular every query on an empty table gets no entry, and a query of
    length 0 gets an entry as soon as the table is not empty. *)
Theorem find_none_iff_table (es : list prefix_and_pop) (t : node)
    (q : address_prefix) :
  Forall valid_entry es ->
  load es empty_node = Done t ->
  is_unsigned (prefix_length q) ->
  (find t q = None <->
   (forall e, In e es -> ~ is_prefix_of q (prefix e)) /\
   (forall e, In e es -> is_prefix_of (prefix e) q ->
              prefix_length (prefix e) = 0)) /\
  (es = [] -> find t q = None) /\
  (es <> [] -> prefix_length q = 0 -> find t q <> None).
Proof.
  intros V L U.
  pose proof (find_none_table es t q V L U) as Main.
  destruct (bits_length_unsigned _ U) as [Hlq _].
  split; [exact Main|]. split.
  - intros ->. apply Main. split; intros e [].
  - intros Hne Z0 F. apply Main in F. destruct F as [H1 _].
    destruct es as [|e es]; [contradiction|].
    apply (H1 e (or_introl eq_refl)).
    exists (prefix_bits (prefix e)).
    destruct (prefix_bits q); [reflexivity|cbn in Hlq; lia].
Qed.

Lemma find_none_iff_table_witness :
  Forall valid_entry [mk_entry (mk_prefix 0 0) 1] /\
  load [mk_entry (mk_prefix 0 0) 1] empty_node
    = Done (mk_node (Some 1) None None) /\
  is_unsigned (prefix_length (mk_prefix addr_2001_db8 32)) /\
  find (mk_node (Some 1) None None) (mk_prefix addr_2001_db8 32) = None.
Proof.
  assert (V : Forall valid_entry [mk_entry (mk_prefix 0 0) 1])
    by (repeat constructor; unfold valid_entry, is_unsigned; cbn; lia).
  assert (U : is_unsigned (prefix_length (mk_prefix addr_2001_db8 32)))
    by (unfold is_unsigned; cbn; lia).
  assert (L : load [mk_entry (mk_prefix 0 0) 1] empty_node
              = Done (mk_node (Some 1) None None)) by reflexivity.
  split; [exact V|]. split; [exact L|]. split; [exact U|].
  apply (proj1 (find_none_iff_table _ _ _ V L U)). split.
  - intros e [<-|[]] [rest E]. vm_compute in E. discriminate.
  - intros e [<-|[]] _. reflexivity.
Defined.

Lemma load_app es1 : forall es2 root,
  load (es1 ++ es2) root =
    match load es1 root with
    | Done r => load es2 r
    | Abort => Abort
    | OutOfFuel => OutOfFuel
    end.
Proof.
  induction es1 as [|e es1 IH]; intros es2 root; cbn [app load];
    [reflexivity|].
  destruct (insert e root); [apply IH|reflexivity|reflexivity].
Qed.

(** X9: adding an entry never takes an answer away.  If a table answers
    a query with some entry and one more entry is inserted successfully,
    the query is still answered with some entry. *)
Theorem insert_keeps_answers (es : list prefix_and_pop) (t t' : node)
    (e : prefix_and_pop) (q : address_prefix) :
  Forall valid_entry es ->
  load es empty_node = Done t ->
  valid_entry e ->
  insert e t = Done t' ->
  is_unsigned (prefix_length q) ->
  find t q <> None -> find t' q <> None.
Proof.
  intros V L Ve I U F F'. apply F.
  assert (V' : Forall valid_entry (es ++ [e]))
    by (apply Forall_app; split;
        [exact V|constructor; [exact Ve|constructor]]).
  assert (L' : load (es ++ [e]) empty_node = Done t').
  { rewrite load_app, L. cbn [load]. rewrite I. reflexivity. }
  apply (find_none_table (es ++ [e]) t' q V' L' U) in F'.
  destruct F' as [H1 H2].
  apply (find_none_table es t q V L U). split.
  - intros x Hx. apply H1, in_or_app. left. exact Hx.
  - intros x Hx. apply H2, in_or_app. left. exact Hx.
Qed.

Lemma insert_keeps_answers_witness :
  Forall valid_entry sibling_table /\
  load sibling_table empty_node = Done sibling_trie /\
  valid_entry (mk_entry (mk_prefix addr_2001_db8 32) 9) /\
  is_unsigned (prefix_length (mk_prefix addr_2001_db8 32)) /\
  (forall t', insert (mk_entry (mk_prefix addr_2001_db8 32) 9) sibling_trie
                = Done t' ->
              find t' (mk_prefix addr_2001_db8 32) <> None).
Proof.
  assert (V : Forall valid_entry sibling_table)
    by (repeat constructor; unfold valid_entry, is_unsigned; cbn; lia).
  assert (Ve : valid_entry (mk_entry (mk_prefix addr_2001_db8 32) 9))
    by (unfold valid_entry, is_unsigned; cbn; lia).
  assert (U : is_unsigned (prefix_length (mk_prefix addr_2001_db8 32)))
    by (unfold is_unsigned; cbn; lia).
  split; [exact V|]. split; [exact sibling_table_loads|].
  split; [exact Ve|]. split; [exact U|].
  intros t' I.
  apply (insert_keeps_answers sibling_table sibling_trie t' _ _ V
           sibling_table_loads Ve I U).
  rewrite find_sibling_parent. discriminate.
Defined.

(** ** Allocation *)

Lemma node_count_set_child n b c :
  (node_count (set_child n b c)
     + match children n b with Some m => node_count m | None => O end
   = node_count n + node_count c)%nat.
Proof.
  destruct n as [p c0 c1], b; cbn;
    [destruct c1 as [m|]|destruct c0 as [m|]]; lia.
Qed.

Lemma node_count_set_pop n v : node_count (set_pop n v) = node_count n.
Proof. destruct n; reflexivity. Qed.

Lemma node_count_child n b c :
  children n b = Some c -> (node_count c < node_count n)%nat.
Proof.
  destruct n as [p c0 c1], b; cbn; intros ->;
    [destruct c0 as [m|]|destruct c1 as [m|]]; lia.
Qed.

Lemma insert_bits_node_count bs : forall v n n',
  insert_bits bs v n = Some n' ->
  (node_count n <= node_count n' <= node_count n + length bs)%nat /\
  (lookup n bs <> None -> node_count n' = node_count n).
Proof.
  induction bs as [|b bs IH]; intros v n n' I; cbn in I.
  - destruct (node_pop n); [discriminate|]. inversion I; subst n'.
    rewrite node_count_set_pop. cbn [length]. split; [lia|reflexivity].
  - destruct (insert_bits bs v _) as [c'|] eqn:E; [|discriminate].
    inversion I; subst n'. clear I.
    pose proof (node_count_set_child n b c') as S.
    destruct (IH _ _ _ E) as [B Same]. cbn [length lookup].
    destruct (children n b) as [c|] eqn:Ec.
    + pose proof (node_count_child _ _ _ Ec) as Lt. split; [lia|].
      intros H. specialize (Same H). lia.
    + cbn in B. split; [lia|]. intros H. contradiction.
Qed.

(** X10: a successful [insert] allocates at most one node per bit of the
    prefix and frees none: the trie grows by between 0 and [prefix_length]
    nodes, and by none when the node at the entry's position was already
    there. *)
Theorem insert_allocation (e : prefix_and_pop) (root root' : node) :
  valid_entry e ->
  insert e root = Done root' ->
  (node_count root <= node_count root'
     <= node_count root + Z.to_nat (prefix_length (prefix e)))%nat /\
  (lookup root (position e) <> None -> node_count root' = node_count root).
Proof.
  intros V I. rewrite insert_bits_of in I by exact V.
  destruct (insert_bits (prefix_bits (prefix e)) (pop e) root) as [r|] eqn:Ib;
    [|discriminate].
  inversion I; subst r.
  rewrite <- (prefix_bits_length (prefix e)).
  eapply insert_bits_node_count. exact Ib.
Qed.

Lemma insert_allocation_witness :
  valid_entry (mk_entry (mk_prefix addr_2001_db8 32) 9) /\
  (forall root',
     insert (mk_entry (mk_prefix addr_2001_db8 32) 9) sibling_trie
       = Done root' ->
     node_count root' = node_count sibling_trie).
Proof.
  assert (V : valid_entry (mk_entry (mk_prefix addr_2001_db8 32) 9))
    by (unfold valid_entry, is_unsigned; cbn; lia).
  split; [exact V|]. intros root' I.
  apply (proj2 (insert_allocation _ sibling_trie root' V I)).
  vm_compute. discriminate.
Defined.

(** X11: a loaded trie has at most one node per bit of its entries,
    besides the root. *)
Theorem load_node_bound (es : list prefix_and_pop) (root t : node) :
  Forall valid_entry es ->
  load es root = Done t ->
  (node_count root <= node_count t
     <= node_count root
        + list_sum (map (fun e => Z.to_nat (prefix_length (prefix e))) es))%nat.
Proof.
  revert root. induction es as [|e es IH]; intros root V L.
  - inversion L; subst. cbn [map list_sum]. lia.
  - inversion V as [|? ? Ve Ves]; subst.
    destruct (load_cons_done _ _ _ _ Ve L) as (root' & I & L').
    specialize (IH root' Ves L').
    destruct (insert_bits_node_count _ _ _ _ I) as [B _].
    unfold position in B. rewrite prefix_bits_length in B.
    unfold list_sum in *. cbn [map fold_right]. lia.
Qed.

Lemma load_node_bound_witness :
  Forall valid_entry sibling_table /\
  load sibling_table empty_node = Done sibling_trie /\
  (node_count sibling_trie <= 1 + (33 + 33))%nat.
Proof.
  assert (V : Forall valid_entry sibling_table)
    by (repeat constructor; unfold valid_entry, is_unsigned; cbn; lia).
  split; [exact V|]. split; [exact sibling_table_loads|].
  exact (proj2 (load_node_bound sibling_table empty_node sibling_trie V
                  sibling_table_loads)).
Defined.

(** ** The byte loops *)

Lemma address_bytes_big_endian (a : Z) : address_bytes a = big_endian 16 a.
Proof.
  cbv [address_bytes address_to_string_loop repeat store Nat.sub
       big_endian app wrap8].
  rewrite !Z.shiftr_div_pow2 by lia.
  change (2 ^ 8) with 256. reflexivity.
Qed.

Lemma lor_byte (x b : Z) :
  0 <= x -> 0 <= b < 256 -> Z.lor (x * 256) b = x * 256 + b.
Proof.
  intros Hx Hb.
  assert (D : Z.land (x * 256) b = 0).
  { apply Z.bits_inj'. intros i Hi. rewrite Z.land_spec, Z.bits_0.
    destruct (Z.lt_ge_cases i 8) as [Hlt|Hge].
    - change 256 with (2 ^ 8). rewrite Z.mul_pow2_bits_low by lia.
      reflexivity.
    - replace b with (b mod 2 ^ 8) by (apply Z.mod_small; lia).
      rewrite Z.mod_pow2_bits_high by lia. apply andb_false_r. }
  rewrite <- Z.lxor_lor by exact D. symmetry.
  apply Z.add_nocarry_lxor. exact D.
Qed.

Lemma parse_address_loop_snoc (l : list Z) (b : Z) :
  parse_address_loop (l ++ [b]) =
    Z.lor (wrap128 (Z.shiftl (parse_address_loop l) 8)) b.
Proof. unfold parse_address_loop. rewrite fold_left_app. reflexivity. Qed.

Lemma pow256_le (n : nat) : (n <= 16)%nat -> 256 ^ Z.of_nat n <= 2 ^ 128.
Proof.
  intros H. change (2 ^ 128) with (256 ^ 16).
  apply Z.pow_le_mono_r; lia.
Qed.

Lemma parse_step (x b : Z) (n : nat) :
  (S n <= 16)%nat -> 0 <= x < 256 ^ Z.of_nat n -> 0 <= b < 256 ->
  Z.lor (wrap128 (Z.shiftl x 8)) b = x * 256 + b /\
  0 <= x * 256 + b < 256 ^ Z.of_nat (S n).
Proof.
  intros Hn Hx Hb.
  pose proof (pow256_le (S n) Hn) as P.
  rewrite Nat2Z.inj_succ, Z.pow_succ_r in * by lia.
  rewrite Z.shiftl_mul_pow2 by lia. change (2 ^ 8) with 256.
  unfold wrap128. rewrite Z.mod_small by nia.
  split; [apply lor_byte; lia|nia].
Qed.

Lemma parse_big_endian (n : nat) : forall a,
  (n <= 16)%nat -> 0 <= a < 256 ^ Z.of_nat n ->
  parse_address_loop (big_endian n a) = a.
Proof.
  induction n as [|n IH]; intros a Hn Ha.
  - cbn in *. lia.
  - cbn [big_endian]. rewrite parse_address_loop_snoc.
    assert (Hq : 0 <= a / 256 < 256 ^ Z.of_nat n).
    { rewrite Nat2Z.inj_succ, Z.pow_succ_r in Ha by lia.
      split; [apply Z.div_pos; lia|].
      apply Z.div_lt_upper_bound; lia. }
    rewrite IH by (try lia; exact Hq).
    destruct (parse_step (a / 256) (a mod 256) n Hn Hq) as [-> _].
    + apply Z.mod_pos_bound. lia.
    + pose proof (Z.div_mod a 256). lia.
Qed.

Lemma big_endian_parse (l : list Z) :
  (length l <= 16)%nat ->
  Forall (fun b => 0 <= b < 256) l ->
  big_endian (length l) (parse_address_loop l) = l /\
  0 <= parse_address_loop l < 256 ^ Z.of_nat (length l).
Proof.
  induction l as [|b l IH] using rev_ind; intros Hl Hb.
  - cbn. split; [reflexivity|lia].
  - rewrite length_app in *. cbn [length] in *.
    apply Forall_app in Hb. destruct Hb as [Hbl Hbb].
    inversion Hbb as [|? ? Hb0 _]; subst.
    destruct IH as [IH1 IH2]; [lia|exact Hbl|].
    rewrite parse_address_loop_snoc.
    replace (length l + 1)%nat with (S (length l)) by lia.
    destruct (parse_step (parse_address_loop l) b (length l)) as [-> R];
      [lia|exact IH2|exact Hb0|].
    split; [|exact R].
    cbn [big_endian].
    rewrite Z.div_add_l, Z.div_small, Z.add_0_r by lia.
    rewrite Z.add_comm, Z.mod_add, Z.mod_small by lia.
    rewrite IH1. reflexivity.
Qed.

Lemma big_endian_bytes (n : nat) : forall a,
  length (big_endian n a) = n /\
  Forall (fun b => 0 <= b < 256) (big_endian n a).
Proof.
  induction n as [|n IH]; intros a; cbn [big_endian].
  - split; [reflexivity|constructor].
  - destruct (IH (a / 256)) as [L F]. rewrite length_app, L. cbn [length].
    split; [lia|]. apply Forall_app. split; [exact F|].
    constructor; [apply Z.mod_pos_bound; lia|constructor].
Qed.

(** X12: the byte loop of [address_to_string] writes the address as 16
    bytes, most significant first (byte 0 holds bits 127..120, byte 15 the
    low 8 bits), and the loop of [parse_address] rebuilds the same 128-bit
    value from them. *)
Theorem address_bytes_round_trip (a : Z) :
  0 <= a < 2 ^ 128 ->
  length (address_bytes a) = 16%nat /\
  Forall (fun b => 0 <= b < 256) (address_bytes a) /\
  nth 0 (address_bytes a) 0 = a / 2 ^ 120 /\
  nth 15 (address_bytes a) 0 = a mod 256 /\
  parse_address_loop (address_bytes a) = a.
Proof.
  intros Ha. rewrite address_bytes_big_endian.
  destruct (big_endian_bytes 16 a) as [L F].
  split; [exact L|]. split; [exact F|]. split; [|split].
  - cbv [big_endian app nth]. rewrite !Z.div_div by lia.
    change (256 * 256 * 256 * 256 * 256 * 256 * 256 * 256 * 256 * 256
            * 256 * 256 * 256 * 256 * 256) with (2 ^ 120).
    apply Z.mod_small. split; [apply Z.div_pos; lia|].
    apply Z.div_lt_upper_bound; lia.
  - cbv [big_endian app nth]. reflexivity.
  - apply parse_big_endian; [lia|]. change (256 ^ Z.of_nat 16) with (2 ^ 128).
    exact Ha.
Qed.

Lemma address_bytes_round_trip_witness :
  0 <= addr_2001_db8 < 2 ^ 128 /\
  nth 0 (address_bytes addr_2001_db8) 0 = 0x20 /\
  parse_address_loop (address_bytes addr_2001_db8) = addr_2001_db8.
Proof.
  assert (R : 0 <= addr_2001_db8 < 2 ^ 128) by (vm_compute; split; congruence).
  split; [exact R|].
  destruct (address_bytes_round_trip addr_2001_db8 R) as (_ & _ & H0 & _ & P).
  split; [rewrite H0; reflexivity|exact P].
Defined.

(** X13: conversely, for a buffer of 16 bytes the loop of [parse_address]
    yields a value below 2^128 from which the loop of [address_to_string]
    recovers the buffer byte for byte. *)
Theorem parse_address_round_trip (buf : list Z) :
  length buf = 16%nat ->
  Forall (fun b => 0 <= b < 256) buf ->
  0 <= parse_address_loop buf < 2 ^ 128 /\
  address_bytes (parse_address_loop buf) = buf.
Proof.
  intros L F.
  destruct (big_endian_parse buf) as [B R]; [lia|exact F|].
  rewrite L in B, R. change (256 ^ Z.of_nat 16) with (2 ^ 128) in R.
  split; [exact R|]. rewrite address_bytes_big_endian. exact B.
Qed.

Lemma parse_address_round_trip_witness :
  length [0x20; 0x01; 0x0d; 0xb8; 0; 0; 0; 0; 0; 0; 0; 0; 0; 0; 0; 1]
    = 16%nat /\
  parse_address_loop
    [0x20; 0x01; 0x0d; 0xb8; 0; 0; 0; 0; 0; 0; 0; 0; 0; 0; 0; 1]
    = addr_2001_db8 + 1 /\
  address_bytes (addr_2001_db8 + 1)
    = [0x20; 0x01; 0x0d; 0xb8; 0; 0; 0; 0; 0; 0; 0; 0; 0; 0; 0; 1].
Proof.
  split; [reflexivity|]. split; [vm_compute; reflexivity|].
  refine (proj2 (parse_address_round_trip
            [0x20; 0x01; 0x0d; 0xb8; 0; 0; 0; 0; 0; 0; 0; 0; 0; 0; 0; 1]
            eq_refl _)).
  repeat constructor; lia.
Defined.

(** ** Which entry the fallback picks *)

Lemma leftmost_payload_least n l v :
  leftmost_payload n l v ->
  forall l' v', payload_at n l' = Some v' -> path_le l l' = true.
Proof.
  induction 1 as [n v H|n c l v Hp Hc _ IH|n c l v Hp H0 Hc _ IH];
    intros l' v' P.
  - reflexivity.
  - destruct l' as [|b l'].
    + rewrite payload_at_nil in P. congruence.
    + destruct b; [reflexivity|]. cbn.
      rewrite payload_at_cons, Hc in P. eapply IH. exact P.
  - destruct l' as [|b l'].
    + rewrite payload_at_nil in P. congruence.
    + rewrite payload_at_cons in P. destruct b.
      * rewrite Hc in P. cbn. eapply IH. exact P.
      * rewrite H0 in P. discriminate.
Qed.

Lemma path_le_app (bs l l' : path) :
  path_le (bs ++ l) (bs ++ l') = path_le l l'.
Proof.
  induction bs as [|b bs IH]; [reflexivity|].
  cbn. rewrite Bool.eqb_reflx. exact IH.
Qed.

(** X14: when no table entry of non-zero length covers the query but some
    entry extends it, [find] answers with the least of the entries
    extending the query in the order of positions in which a prefix comes
    before its extensions and, at the first differing bit, 0 comes before
    1. *)
Theorem find_fallback_least (es : list prefix_and_pop) (t : node)
    (e : prefix_and_pop) (q : address_prefix) :
  Forall valid_entry es ->
  load es empty_node = Done t ->
  is_unsigned (prefix_length q) ->
  In e es ->
  is_prefix_of q (prefix e) ->
  (forall e', In e' es -> is_prefix_of (prefix e') q ->
              prefix_length (prefix e') = 0) ->
  exists e0,
    In e0 es /\ is_prefix_of q (prefix e0) /\
    find t q = Some (mk_match (pop e0) (prefix_length (prefix e0))) /\
    forall e', In e' es -> is_prefix_of q (prefix e') ->
               path_le (position e0) (position e') = true.
Proof.
  intros V L U He [rest E] Cov. fold (position e) in E.
  pose proof V as V'. rewrite Forall_forall in V'.
  assert (N : no_payload_along t (prefix_bits q))
    by (apply (table_no_payload_along es t q V L); exact Cov).
  destruct (lookup t (prefix_bits q)) as [n|] eqn:Lk.
  2:{ exfalso. assert (X : lookup t (prefix_bits q) <> None)
        by (apply (table_nodes es t V L); right; eauto).
      contradiction. }
  destruct (descend_from_table es t _ n V L Lk) as (l & v & D).
  { right. intros ->. contradiction. }
  pose proof D as Lm. apply descend_bits_leftmost in Lm.
  pose proof (leftmost_payload_at _ _ _ Lm) as P.
  rewrite <- (payload_at_app t (prefix_bits q) l n Lk) in P.
  apply (table_payload es t _ v V L) in P.
  destruct P as (e0 & He0 & Pe0 & Ve0).
  destruct (bits_length_unsigned _ (V' e0 He0)) as [_ Hw].
  fold (position e0) in Hw. rewrite Pe0, length_app in Hw.
  exists e0. split; [exact He0|]. split; [exists l; exact Pe0|]. split.
  - unfold find. rewrite (find_run_landing t q n U Lk N).
    rewrite find_descend_best, D. cbn [fst snd].
    rewrite Hw, Ve0. reflexivity.
  - intros e' He' [l' E']. fold (position e') in E'.
    rewrite Pe0, E', path_le_app.
    apply (leftmost_payload_least n l v Lm l' (pop e')).
    rewrite <- (payload_at_app t (prefix_bits q) l' n Lk), <- E'.
    apply (table_payload es t _ _ V L). eauto.
Qed.

Lemma find_fallback_least_witness :
  Forall valid_entry (rev sibling_table) /\
  load (rev sibling_table) empty_node = Done sibling_trie /\
  is_unsigned (prefix_length (mk_prefix addr_2001_db8 32)) /\
  exists e0,
    In e0 (rev sibling_table) /\
    find sibling_trie (mk_prefix addr_2001_db8 32)
      = Some (mk_match (pop e0) (prefix_length (prefix e0))) /\
    path_le (position e0)
            (position (mk_entry (mk_prefix addr_2001_db8_8000 33) 6)) = true.
Proof.
  assert (V : Forall valid_entry (rev sibling_table))
    by (repeat constructor; unfold valid_entry, is_unsigned; cbn; lia).
  assert (L : load (rev sibling_table) empty_node = Done sibling_trie)
    by (vm_compute; reflexivity).
  assert (U : is_unsigned (prefix_length (mk_prefix addr_2001_db8 32)))
    by (unfold is_unsigned; cbn; lia).
  split; [exact V|]. split; [exact L|]. split; [exact U|].
  destruct (find_fallback_least (rev sibling_table) sibling_trie
              (mk_entry (mk_prefix addr_2001_db8_8000 33) 6)
              (mk_prefix addr_2001_db8 32) V L U)
    as (e0 & He0 & _ & F & Least).
  - cbn; tauto.
  - exists [true]. vm_compute. reflexivity.
  - intros e' [<-|[<-|[]]] [rest E];
      apply (f_equal (@length bool)) in E;
      rewrite length_app, !prefix_bits_length in E; cbn in E; lia.
  - exists e0. split; [exact He0|]. split; [exact F|].
    apply Least; [cbn; tauto|]. exists [true]. vm_compute. reflexivity.
Defined.
